(** * go-cachefn: a self-refreshing in-process cache

    Shallow embedding of the two cache engines of the package
    ([Cache], the per-key cache, and [CacheMap], the bulk cache) and the
    properties of their [Get] operations and maintenance loops.

    Modelling conventions.
    - [time.Time] is a count of nanoseconds since the zero Time, as an
      integer; the zero Time is [0].  [time.Duration] is an [int64] count of
      nanoseconds; [Time.Sub] saturates at the ends of the [int64] range.
    - Everything the code observes from its environment (clock readings,
      whether a context is done, which ready case a [select] picks, what the
      caller-supplied producer returns) is an explicit input of the
      definition that observes it.  Theorems quantify over these inputs.
    - The external concurrent map (haxmap) is a finite map whose operations
      are atomic.  Every element pointer is created by one constructor call
      and stored under one key, so a slot is modelled by the record it
      points to and an assignment through the pointer by an update of the
      slot. *)

From stdpp Require Import gmap strings list fin_maps.

Open Scope Z_scope.

(** ** Time *)

Definition Duration := Z.
Definition Time := Z.

Definition minDuration : Duration := - 2 ^ 63.
Definition maxDuration : Duration := 2 ^ 63 - 1.

(** [t.Sub(u)]: the difference, or the nearest representable Duration. *)
Definition Time_Sub (t u : Time) : Duration :=
  if bool_decide (maxDuration < t - u) then maxDuration
  else if bool_decide (t - u < minDuration) then minDuration
  else t - u.

(** [time.Since(t)] at the clock reading [now]. *)
Definition time_Since (now t : Time) : Duration := Time_Sub now t.

Definition Time_IsZero (t : Time) : bool := bool_decide (t = 0).

(** [t.After(u)] *)
Definition Time_After (t u : Time) : bool := bool_decide (u < t).

(** [d >> n] on a signed Duration is an arithmetic shift. *)
Definition shr (d : Duration) (n : Z) : Duration := Z.shiftr d n.

(** ** Channels used as one-shot gates

    The [ready] channels are never sent on: they are created, closed at most
    once, and received from.  A receive proceeds only on a closed channel; a
    receive on a nil channel blocks for ever; closing a nil or a closed
    channel panics. *)

Inductive chan := nil_chan | open_chan | closed_chan.

Global Instance chan_eq_dec : EqDecision chan.
Proof. solve_decision. Defined.

Definition close (c : chan) : option chan :=
  match c with
  | open_chan => Some closed_chan
  | nil_chan | closed_chan => None
  end.

Definition can_recv (c : chan) : bool :=
  match c with
  | closed_chan => true
  | nil_chan | open_chan => false
  end.

(** The two-way [select] of both [Get] methods.  When both cases can proceed
    the runtime picks one of them at random: [pick] is that choice.  [None]
    means that the goroutine stays blocked. *)

Inductive select_case := case_ctx_Done | case_ready.

Global Instance select_case_eq_dec : EqDecision select_case.
Proof. solve_decision. Defined.

Definition select (ctx_done : bool) (ready : chan) (pick : select_case)
  : option select_case :=
  match ctx_done, can_recv ready with
  | true, true => Some pick
  | true, false => Some case_ctx_Done
  | false, true => Some case_ready
  | false, false => None
  end.

(** ** Contexts and the trace of observable calls *)

Inductive context :=
| Background
| CallerCtx (id : nat)
| WithCancel (parent : context)
| WithTimeout (parent : context) (d : Duration).

Global Instance context_eq_dec : EqDecision context.
Proof. solve_decision. Defined.

(** What a function of the package can finish with. *)
Inductive outcome (A : Type) :=
| Returns (a : A)
| Blocks
| Panics.
Arguments Returns {A} a.
Arguments Blocks {A}.
Arguments Panics {A}.

Definition outcome_bind {A B : Type} (f : A → outcome B) (x : outcome A)
  : outcome B :=
  match x with
  | Returns a => f a
  | Blocks => Blocks
  | Panics => Panics
  end.

Global Instance outcome_mbind : MBind outcome := @outcome_bind.

(** ** The external map

    The haxmap package is not part of the sources.  It is modelled as the
    ConcurrentMap port the specification describes: a finite map with an
    atomic get-or-insert, set, delete-many, and an iteration that is safe
    while the callback updates the visited entries.  The iteration order is
    the one of [map_to_list]; no property below depends on it. *)

Module haxmap.
Section map.
Context `{Countable K} {E : Type}.

(** Modelled from the spec: [Map.GetOrCompute] of haxmap, the port's atomic
    get-or-insert.  [valueFn] is the element the constructor would build;
    it is used only when the key is absent.  The boolean is [loaded]. *)
Definition GetOrCompute (key : K) (valueFn : E) (m : gmap K E)
  : E * bool * gmap K E :=
  match m !! key with
  | Some value => (value, true, m)
  | None => (valueFn, false, <[key := valueFn]> m)
  end.

(** Modelled from the spec: [Map.Get] of haxmap, the port's plain lookup. *)
Definition Get (key : K) (m : gmap K E) : option E := m !! key.

(** Modelled from the spec: [Map.Set] of haxmap, the port's set. *)
Definition Set_ (key : K) (value : E) (m : gmap K E) : gmap K E :=
  <[key := value]> m.

(** Modelled from the spec: [Map.Del] of haxmap, the port's delete-many. *)
Definition Del (keys : list K) (m : gmap K E) : gmap K E :=
  foldl (λ m key, delete key m) m keys.

(** Modelled from the spec: [Map.Clear] of haxmap, which releases the
    map. *)
Definition Clear (m : gmap K E) : gmap K E := ∅.

(** Modelled from the spec: [Map.ForEach] of haxmap, the port's iteration,
    over the entries in their order.  The callback returns [false] to stop
    the iteration. *)
Fixpoint ForEach_items {S : Type} (lambda : K → E → S → S * bool)
  (items : list (K * E)) (s : S) : S :=
  match items with
  | [] => s
  | (key, value) :: rest =>
      let '(s', continue) := lambda key value s in
      if continue then ForEach_items lambda rest s' else s'
  end.

(** Modelled from the spec: [Map.ForEach] of haxmap on a map. *)
Definition ForEach {S : Type} (lambda : K → E → S → S * bool)
  (m : gmap K E) (s : S) : S :=
  ForEach_items lambda (map_to_list m) s.

End map.
End haxmap.

(** ** The per-key cache: [Cache], [New], [Get], [Set] *)

Module PointCache.
Section cache.
Context `{Countable K} {V : Type}.

(** The zero value of [V]. *)
Variable zero : V.

Record element := {
  data : V;
  lastUsed : Time;
  created : Time;
  ready : chan;
}.

(** [cancelled] is the state of the lifecycle context [c.ctx]:
    [c.ctx.Err() != nil] once [c.cancel] has run. *)
Record Cache := {
  cacheMap : gmap K element;
  RefreshTime : Duration;
  KeepTime : Duration;
  cancelled : bool;
}.

(** [c.ctx], made by [context.WithCancel(context.Background())]. *)
Definition lifecycle : context := WithCancel Background.

Inductive event :=
| Produce (ctx : context) (key : K)   (* a call of refreshFunc *)
| CloseReady (key : K).               (* close(value.ready) *)

Definition with_cacheMap (m : gmap K element) (c : Cache) : Cache :=
  {| cacheMap := m; RefreshTime := RefreshTime c; KeepTime := KeepTime c;
     cancelled := cancelled c |}.

Definition with_cancelled (b : bool) (c : Cache) : Cache :=
  {| cacheMap := cacheMap c; RefreshTime := RefreshTime c;
     KeepTime := KeepTime c; cancelled := b |}.

Definition with_lastUsed (t : Time) (e : element) : element :=
  {| data := data e; lastUsed := t; created := created e; ready := ready e |}.

Definition with_data_lastUsed (d : V) (t : Time) (e : element) : element :=
  {| data := d; lastUsed := t; created := created e; ready := ready e |}.

Definition with_data_created (d : V) (t : Time) (e : element) : element :=
  {| data := d; lastUsed := lastUsed e; created := t; ready := ready e |}.

Definition with_ready (ch : chan) (e : element) : element :=
  {| data := data e; lastUsed := lastUsed e; created := created e;
     ready := ch |}.

(** The element built by the constructor passed to [GetOrCompute]. *)
Definition new_element (now : Time) : element :=
  {| data := zero; lastUsed := 0; created := now; ready := open_chan |}.

Definition New (RefreshTime KeepTime : Duration) : Cache :=
  {| cacheMap := ∅; RefreshTime := RefreshTime; KeepTime := KeepTime;
     cancelled := false |}.

(** *** [Get], run by one caller without interference

    [now_new] is the clock read by the constructor, [now_used] the clock
    read when [lastUsed] is stamped, [produced] what [refreshFunc] returns
    to this call. *)

Record get_env := {
  now_new : Time;
  ctx_done : bool;
  pick : select_case;
  produced : V * bool;
  now_used : Time;
}.

(** The wait of a caller that found the slot: none when [value.ready] is
    nil, the [select] otherwise. *)
Definition await (value : element) (done : bool) (pick : select_case)
  : option select_case :=
  if decide (ready value = nil_chan) then Some case_ready
  else select done (ready value) pick.

Definition Get (c : Cache) (ctx : context) (key : K) (w : get_env)
  : outcome (V * bool * Cache * list event) :=
  let '(value, loaded, m) :=
    haxmap.GetOrCompute key (new_element (now_new w)) (cacheMap c) in
  if loaded then
    match await value (ctx_done w) (pick w) with
    | None => Blocks
    | Some case_ctx_Done => Returns (data value, false, c, [])
    | Some case_ready =>
        if Time_IsZero (lastUsed value) then Returns (data value, false, c, [])
        else
          let value := with_lastUsed (now_used w) value in
          Returns (data value, true, with_cacheMap (<[key := value]> m) c, [])
    end
  else
    let '(d, ok) := produced w in
    let value := if ok then with_data_lastUsed d (now_used w) value else value in
    (* the deferred close(value.ready) *)
    match close (ready value) with
    | None => Panics
    | Some ch =>
        Returns (data value, ok,
                 with_cacheMap (<[key := with_ready ch value]> m) c,
                 [Produce ctx key; CloseReady key])
    end.

Definition Set_ (c : Cache) (key : K) (value : V) (now : Time) : Cache :=
  let elm := {| data := value; created := now; lastUsed := now;
                ready := nil_chan |} in
  with_cacheMap (haxmap.Set_ key elm (cacheMap c)) c.

(** *** [Get] as a goroutine: its atomic steps

    Several callers run [Get] for one key at once.  A caller is at one of
    the program points below; between two points it does one access to the
    shared slot. *)

Inductive exit := ret_ctx_done | ret_failed | ret_found | ret_computed.

Inductive pc :=
| at_GetOrCompute
| at_select
| at_lastUsed
| at_refreshFunc
| at_store (res : V * bool)
| at_close (ret : V * bool)
| returned (by_ : exit) (ret : V * bool)
| panicked.

Record obs := {
  o_now : Time;
  o_ctx_done : bool;
  o_pick : select_case;
  o_produced : V * bool;
}.

(** One step of a caller of [Get(ctx, key)]; [None] when it cannot move
    (it is blocked in the [select], or it has finished).  The caller's
    pointer [value] is the slot of [key]: the callers run [Get] only, so
    the slot they loaded is not replaced under them. *)
Definition step (ctx : context) (key : K) (o : obs) (p : pc)
  (m : gmap K element) : option (pc * gmap K element * list event) :=
  match p with
  | at_GetOrCompute =>
      let '(_, loaded, m) :=
        haxmap.GetOrCompute key (new_element (o_now o)) m in
      Some (if loaded then at_select else at_refreshFunc, m, [])
  | at_select =>
      value ← m !! key;
      match await value (o_ctx_done o) (o_pick o) with
      | None => None
      | Some case_ctx_Done =>
          Some (returned ret_ctx_done (data value, false), m, [])
      | Some case_ready => Some (at_lastUsed, m, [])
      end
  | at_lastUsed =>
      value ← m !! key;
      if Time_IsZero (lastUsed value)
      then Some (returned ret_failed (data value, false), m, [])
      else Some (returned ret_found (data value, true),
                 <[key := with_lastUsed (o_now o) value]> m, [])
  | at_refreshFunc => Some (at_store (o_produced o), m, [Produce ctx key])
  | at_store (d, ok) =>
      value ← m !! key;
      let value :=
        if ok then with_data_lastUsed d (o_now o) value else value in
      Some (at_close (data value, ok), <[key := value]> m, [])
  | at_close ret =>
      value ← m !! key;
      match close (ready value) with
      | None => Some (panicked, m, [])
      | Some ch =>
          Some (returned ret_computed ret,
                <[key := with_ready ch value]> m, [CloseReady key])
      end
  | returned _ _ | panicked => None
  end.

(** The callers of [Get(CallerCtx tid, key)], the shared map and the trace. *)
Record system := {
  sys_map : gmap K element;
  sys_threads : list pc;
  sys_trace : list event;
}.

Definition sys_step (key : K) (tid : nat) (o : obs) (s : system) : system :=
  match sys_threads s !! tid with
  | None => s
  | Some p =>
      match step (CallerCtx tid) key o p (sys_map s) with
      | None => s
      | Some (p', m', evs) =>
          {| sys_map := m'; sys_threads := <[tid := p']> (sys_threads s);
             sys_trace := sys_trace s ++ evs |}
      end
  end.

(** A schedule says which caller moves next and what it observes. *)
Definition run (key : K) (sched : list (nat * obs)) (s : system) : system :=
  foldl (λ s '(tid, o), sys_step key tid o s) s sched.

(** [n] callers about to call [Get] on the map [m]. *)
Definition start (n : nat) (m : gmap K element) : system :=
  {| sys_map := m; sys_threads := replicate n at_GetOrCompute;
     sys_trace := [] |}.

Definition is_Produce (key : K) (e : event) : bool :=
  match e with
  | Produce _ key' => bool_decide (key' = key)
  | CloseReady _ => false
  end.

Definition is_CloseReady (key : K) (e : event) : bool :=
  match e with
  | CloseReady key' => bool_decide (key' = key)
  | Produce _ _ => false
  end.

(** How often the producer was called for [key] in a trace. *)
Definition produced_count (key : K) (tr : list event) : nat :=
  length (filter (λ e, is_Produce key e = true) tr).

Definition closed_count (key : K) (tr : list event) : nat :=
  length (filter (λ e, is_CloseReady key e = true) tr).

(** *** The maintenance goroutine started by [New]

    What the callback passed to [ForEach] observes while it visits one
    entry: whether [c.cancel] has run by then, the clock read by each
    [time.Since] and by [time.Now], and what [refreshFunc] returns. *)

Record visit_env := {
  v_cancel : bool;
  v_now_created : Time;
  v_now_used : Time;
  v_produced : V * bool;
  v_now_refreshed : Time;
}.

(** The variables the callback closes over. *)
Record sweep_state := {
  s_map : gmap K element;
  s_toDelete : list K;
  s_trace : list event;
  s_cancelled : bool;
}.

Definition sweep_init (c : Cache) : sweep_state :=
  {| s_map := cacheMap c; s_toDelete := []; s_trace := [];
     s_cancelled := cancelled c |}.

(** The callback of [ForEach] in [New]. *)
Definition visit (RefreshTime KeepTime : Duration) (env : K → visit_env)
  (key : K) (value : element) (s : sweep_state) : sweep_state * bool :=
  let w := env key in
  if s_cancelled s || v_cancel w then
    ({| s_map := s_map s; s_toDelete := s_toDelete s; s_trace := s_trace s;
        s_cancelled := true |}, false)
  else
    let sinceCreated := time_Since (v_now_created w) (created value) in
    if bool_decide (0 < KeepTime) && bool_decide (KeepTime < sinceCreated) then
      ({| s_map := s_map s; s_toDelete := s_toDelete s ++ [key];
          s_trace := s_trace s; s_cancelled := false |}, true)
    else if bool_decide (sinceCreated < RefreshTime) then (s, true)
    else if Time_After (created value) (lastUsed value) then (s, true)
    else if bool_decide (time_Since (v_now_used w) (lastUsed value)
                         < shr RefreshTime 1) then
      let withTimeout := WithTimeout lifecycle (shr RefreshTime 1) in
      let '(d, ok) := v_produced w in
      let tr := s_trace s ++ [Produce withTimeout key] in
      if negb ok then
        ({| s_map := s_map s; s_toDelete := s_toDelete s; s_trace := tr;
            s_cancelled := false |}, true)
      else
        ({| s_map := <[key := with_data_created d (v_now_refreshed w) value]>
                       (s_map s);
            s_toDelete := s_toDelete s; s_trace := tr;
            s_cancelled := false |}, true)
    else (s, true).

(** The walk over the entries and the batch delete that follows it. *)
Definition sweep (c : Cache) (env : K → visit_env) : sweep_state :=
  let s := haxmap.ForEach (visit (RefreshTime c) (KeepTime c) env)
             (cacheMap c) (sweep_init c) in
  {| s_map := haxmap.Del (s_toDelete s) (s_map s);
     s_toDelete := s_toDelete s; s_trace := s_trace s;
     s_cancelled := s_cancelled s |}.

(** One maintenance cycle: the sleep, the test after it, the sweep, and the
    loop condition that follows.  The loop is left when the lifecycle
    context is found cancelled; the map is cleared then.  The boolean says
    whether the loop goes on. *)
Record cycle_env := {
  cancel_in_sleep : bool;
  visits : K → visit_env;
  cancel_at_end : bool;
}.

Definition stop (c : Cache) : Cache :=
  with_cancelled true (with_cacheMap (haxmap.Clear (cacheMap c)) c).

Definition cycle (c : Cache) (w : cycle_env) : Cache * list event * bool :=
  if cancelled c || cancel_in_sleep w then (stop c, [], false)
  else
    let s := sweep c (visits w) in
    let c := with_cacheMap (s_map s) c in
    if s_cancelled s || cancel_at_end w then (stop c, s_trace s, false)
    else (c, s_trace s, true).

(** The goroutine: the first loop condition, then cycles for as long as the
    environments given last. *)
Fixpoint cycles (ws : list cycle_env) (c : Cache) : Cache * list event * bool :=
  match ws with
  | [] => (c, [], true)
  | w :: ws =>
      let '(c, tr, running) := cycle c w in
      if running then
        let '(c, tr', running) := cycles ws c in (c, tr ++ tr', running)
      else (c, tr, false)
  end.

Definition maintenance (cancel_at_start : bool) (ws : list cycle_env)
  (c : Cache) : Cache * list event * bool :=
  if cancelled c || cancel_at_start then (stop c, [], false)
  else cycles ws c.

End cache.
End PointCache.

(** ** The bulk cache: [CacheMap], [NewMap], [Get] *)

Module BulkCache.
Section cachemap.
Context `{Countable K} {V : Type}.

(** The zero value of [V]. *)
Variable zero : V.

Record mapElement := {
  data : V;
  created : Time;
}.

(** [cancelled] is the state of the lifecycle context [c.ctx];
    [ready_done] is the state of the [sync.OnceFunc] closure [ready] of
    [NewMap]: whether it has been called. *)
Record CacheMap := {
  cacheMap : gmap K mapElement;
  RefreshTime : Duration;
  KeepTime : Duration;
  lastRefresh : Time;
  cancelled : bool;
  ready : chan;
  ready_done : bool;
}.

Inductive event :=
| Refresh (ok : bool)   (* refreshFunc was called and returned ok *)
| Leave                 (* the goroutine returns *)
| ReadyCall             (* the closure ready was called *)
| CloseReady.           (* close(c.ready) was run *)

Definition with_cacheMap (m : gmap K mapElement) (c : CacheMap) : CacheMap :=
  {| cacheMap := m; RefreshTime := RefreshTime c; KeepTime := KeepTime c;
     lastRefresh := lastRefresh c; cancelled := cancelled c;
     ready := ready c; ready_done := ready_done c |}.

Definition with_lastRefresh (t : Time) (c : CacheMap) : CacheMap :=
  {| cacheMap := cacheMap c; RefreshTime := RefreshTime c;
     KeepTime := KeepTime c; lastRefresh := t; cancelled := cancelled c;
     ready := ready c; ready_done := ready_done c |}.

Definition with_cancelled (b : bool) (c : CacheMap) : CacheMap :=
  {| cacheMap := cacheMap c; RefreshTime := RefreshTime c;
     KeepTime := KeepTime c; lastRefresh := lastRefresh c; cancelled := b;
     ready := ready c; ready_done := ready_done c |}.

Definition with_ready (ch : chan) (c : CacheMap) : CacheMap :=
  {| cacheMap := cacheMap c; RefreshTime := RefreshTime c;
     KeepTime := KeepTime c; lastRefresh := lastRefresh c;
     cancelled := cancelled c; ready := ch; ready_done := true |}.

Definition NewMap (RefreshTime KeepTime : Duration) : CacheMap :=
  {| cacheMap := ∅; RefreshTime := RefreshTime; KeepTime := KeepTime;
     lastRefresh := 0; cancelled := false; ready := open_chan;
     ready_done := false |}.

(** The closure [ready := sync.OnceFunc(func() { close(c.ready) })]:
    only its first call runs the function. *)
Definition ready_once (c : CacheMap) : outcome (CacheMap * list event) :=
  if ready_done c then Returns (c, [ReadyCall])
  else
    match close (ready c) with
    | Some ch => Returns (with_ready ch c, [ReadyCall; CloseReady])
    | None => Panics
    end.

(** One run of the producer: the clock read into [start], the calls of the
    setter it makes (each with the clock read by its [time.Now]), what it
    returns, and whether [c.cancel] has run by the test that follows. *)
Record run_env := {
  r_start : Time;
  r_writes : list (K * V * Time);
  r_ok : bool;
  r_cancel : bool;
}.

(** The function handed to the producer. *)
Definition setter (m : gmap K mapElement) (w : K * V * Time)
  : gmap K mapElement :=
  let '(key, val, now) := w in
  haxmap.Set_ key {| data := val; created := now |} m.

Definition refresh (c : CacheMap) (w : run_env)
  : outcome (CacheMap * list event) :=
  let c := with_cacheMap (foldl setter (cacheMap c) (r_writes w)) c in
  let c := with_cancelled (cancelled c || r_cancel w) c in
  if r_ok w && negb (cancelled c) then
    '(c, tr) ← ready_once (with_lastRefresh (r_start w) c);
    Returns (c, Refresh (r_ok w) :: tr)
  else Returns (c, [Refresh (r_ok w)]).

(** The callback of [ForEach] in [NewMap]; [now_of key] is the clock read
    by [time.Since] while [key] is visited. *)
Definition visit (KeepTime : Duration) (now_of : K → Time)
  (key : K) (value : mapElement) (toDelete : list K) : list K * bool :=
  let sinceCreated := time_Since (now_of key) (created value) in
  if bool_decide (KeepTime < sinceCreated) then (toDelete ++ [key], true)
  else (toDelete, true).

Definition toDelete (c : CacheMap) (now_of : K → Time) : list K :=
  haxmap.ForEach (visit (KeepTime c) now_of) (cacheMap c) [].

Definition sweep (c : CacheMap) (now_of : K → Time) : gmap K mapElement :=
  haxmap.Del (toDelete c now_of) (cacheMap c).

(** Leaving the goroutine runs the deferred [ready()]. *)
Definition leave (c : CacheMap) : outcome (CacheMap * list event * bool) :=
  '(c, tr) ← ready_once (with_cancelled true c);
  Returns (c, Leave :: tr, false).

(** One turn of the loop: the sleeps and the test between them, the sweep,
    the producer run when one is due, and the loop condition that follows.
    The boolean says whether the loop goes on. *)
Record iter_env := {
  i_cancel_sleep : bool;
  i_sweep_now : K → Time;
  i_now : Time;
  i_run : run_env;
  i_cancel_end : bool;
}.

(** The loop condition [c.ctx.Err() == nil]; [cancel] says whether
    [c.cancel] has run by then. *)
Definition loop_condition (cancel : bool) (c : CacheMap) (tr : list event)
  : outcome (CacheMap * list event * bool) :=
  if cancelled c || cancel then
    '(c, tr', running) ← leave c; Returns (c, tr ++ tr', running)
  else Returns (c, tr, true).

Definition iteration (c : CacheMap) (w : iter_env)
  : outcome (CacheMap * list event * bool) :=
  if cancelled c || i_cancel_sleep w then leave c
  else
    let c := with_cacheMap (sweep c (i_sweep_now w)) c in
    '(c, tr) ←
      (if bool_decide (time_Since (i_now w) (lastRefresh c) < RefreshTime c)
       then Returns (c, [])
       else refresh c (i_run w));
    loop_condition (i_cancel_end w) c tr.

Fixpoint iterations (ws : list iter_env) (c : CacheMap)
  : outcome (CacheMap * list event * bool) :=
  match ws with
  | [] => Returns (c, [], true)
  | w :: ws =>
      '(c, tr, running) ← iteration c w;
      if running : bool then
        '(c, tr', running) ← iterations ws c; Returns (c, tr ++ tr', running)
      else Returns (c, tr, false)
  end.

(** The goroutine of [NewMap]: the first producer run, the first loop
    condition, then the turns of the loop. *)
Definition maintenance (w0 : run_env) (cancel_at_start : bool)
  (ws : list iter_env) (c : CacheMap)
  : outcome (CacheMap * list event * bool) :=
  '(c, tr) ← refresh c w0;
  '(c, tr, running) ← loop_condition cancel_at_start c tr;
  if running : bool then
    '(c, tr', running) ← iterations ws c; Returns (c, tr ++ tr', running)
  else Returns (c, tr, false).

(** [Get]: [done] says whether the receive from [ctx.Done()] can proceed. *)
Definition Get (c : CacheMap) (done : bool) (pick : select_case) (key : K)
  : outcome (V * bool) :=
  match select done (ready c) pick with
  | None => Blocks
  | Some case_ctx_Done => Returns (zero, false)
  | Some case_ready =>
      match haxmap.Get key (cacheMap c) with
      | Some value => Returns (data value, true)
      | None => Returns (zero, false)
      end
  end.

End cachemap.
End BulkCache.

(** * Properties *)

(** ** Time and the external map *)

Lemma Time_Sub_exact (t u : Time) :
  minDuration ≤ t - u ≤ maxDuration → Time_Sub t u = t - u.
Proof.
  intros [Hlo Hhi]. unfold Time_Sub.
  rewrite bool_decide_eq_false_2 by lia.
  rewrite bool_decide_eq_false_2 by lia. done.
Qed.

Lemma Time_Sub_mono (t t' u : Time) : t ≤ t' → Time_Sub t u ≤ Time_Sub t' u.
Proof.
  intros Hle. unfold Time_Sub.
  repeat case_bool_decide; unfold maxDuration, minDuration in *; lia.
Qed.

Lemma Time_Sub_range (t u : Time) : minDuration ≤ Time_Sub t u ≤ maxDuration.
Proof.
  unfold Time_Sub.
  repeat case_bool_decide; unfold maxDuration, minDuration in *; lia.
Qed.

Lemma shr_1_half (d : Duration) : shr d 1 = d `div` 2.
Proof. unfold shr. by rewrite Z.shiftr_div_pow2. Qed.

(** The time since the zero Time, read in this century, is out of range. *)
Example time_Since_zero_Time :
  time_Since (2025 * 365 * 24 * 3600 * 1000000000) 0 = maxDuration.
Proof. reflexivity. Qed.

Example shr_negative : shr (-3) 1 = -2.
Proof. reflexivity. Qed.

Section haxmap_facts.
Context `{Countable K} {E : Type}.
Implicit Types (m : gmap K E) (keys : list K).

Lemma Del_lookup_ne keys m key :
  key ∉ keys → haxmap.Del keys m !! key = m !! key.
Proof.
  unfold haxmap.Del. revert m.
  induction keys as [|k keys IH]; intros m Hnotin; simpl; [done|].
  apply not_elem_of_cons in Hnotin as [Hne Hnotin].
  rewrite IH by done. by apply lookup_delete_ne.
Qed.

Lemma Del_lookup_None keys m key :
  m !! key = None → haxmap.Del keys m !! key = None.
Proof.
  unfold haxmap.Del. revert m.
  induction keys as [|k keys IH]; intros m Hm; simpl; [done|].
  apply IH. rewrite lookup_delete. case_decide; done.
Qed.

Lemma Del_lookup_elem keys m key :
  key ∈ keys → haxmap.Del keys m !! key = None.
Proof.
  unfold haxmap.Del. revert m.
  induction keys as [|k keys IH]; intros m Hin; simpl.
  - by apply elem_of_nil in Hin.
  - apply elem_of_cons in Hin as [->|Hin]; [|by apply IH].
    apply (Del_lookup_None keys). apply lookup_delete_eq.
Qed.

End haxmap_facts.

(** ** [Cache.Get] and [Cache.Set] *)

Module PointCacheGet.
Import PointCache.

Section get.
Context `{Countable K} {V : Type}.
Variable zero : V.
Implicit Types (c : Cache (K:=K) (V:=V)) (e : element (V:=V)) (key : K).

(** The slot left by a call of [Get] that inserted it. *)
Definition computed (w : get_env (V:=V)) : element :=
  {| data := if (produced w).2 then (produced w).1 else zero;
     lastUsed := if (produced w).2 then now_used w else 0;
     created := now_new w;
     ready := closed_chan |}.

(** C2 as the specification words it: on success both stamps are the clock
    reading taken when the producer has returned. *)
Definition stamped_both (c : Cache (K:=K) (V:=V)) (key : K) (now : Time)
  : Prop :=
  ∃ e, cacheMap c !! key = Some e ∧ created e = now ∧ lastUsed e = now.

(** C3 as the specification words it for a slot whose gate is resolved or
    absent: the result depends on [lastUsed] alone. *)
Definition by_lastUsed (c : Cache (K:=K) (V:=V)) (ctx : context) (key : K)
  (w : get_env (V:=V)) (e : element) : Prop :=
  Get zero c ctx key w =
    if Time_IsZero (lastUsed e) then Returns (data e, false, c, [])
    else Returns (data e, true,
                  with_cacheMap (<[key := with_lastUsed (now_used w) e]>
                                   (cacheMap c)) c, []).

(** The [select] of [Get] takes the [value.ready] case, or there is no
    [select] because the slot has no gate. *)
Definition passes_gate (e : element (V:=V)) (w : get_env (V:=V)) : Prop :=
  ready e = nil_chan ∨
  (ready e = closed_chan ∧ (ctx_done w = false ∨ pick w = case_ready)).

End get.

Section get_facts.
Context `{Countable K} {V : Type}.
Variable zero : V.
Implicit Types (c : Cache (K:=K) (V:=V)) (e : element (V:=V)) (key : K).

Lemma Get_on_slot_unfold c ctx key w e :
  cacheMap c !! key = Some e →
  Get zero c ctx key w =
    match await e (ctx_done w) (pick w) with
    | None => Blocks
    | Some case_ctx_Done => Returns (data e, false, c, [])
    | Some case_ready =>
        if Time_IsZero (lastUsed e) then Returns (data e, false, c, [])
        else Returns (data e, true,
                      with_cacheMap (<[key := with_lastUsed (now_used w) e]>
                                       (cacheMap c)) c, [])
    end.
Proof. intros He. unfold Get, haxmap.GetOrCompute. by rewrite He. Qed.

Lemma await_passes e w :
  passes_gate e w → await e (ctx_done w) (pick w) = Some case_ready.
Proof.
  unfold passes_gate, await, select.
  intros [Hnil | [Hclosed [Hdone | Hpick]]].
  - by rewrite decide_True.
  - rewrite decide_False by congruence. by rewrite Hclosed, Hdone.
  - rewrite decide_False by congruence. rewrite Hclosed, Hpick.
    by destruct (ctx_done w).
Qed.

(** C2 (amended).  A call of [Get] that inserts the slot calls the producer
    once with the caller's context and closes the gate once, whatever the
    producer returns.  The slot keeps the [created] stamp it got when it was
    inserted, before the producer ran.  When the producer returns
    [ok = true] the slot holds the produced data, [lastUsed] is the clock
    read after the producer returned, and [Get] returns [(data, true)];
    when it returns [ok = false] the data stays the zero value, [lastUsed]
    stays unset, and [Get] returns [(zero, false)]. *)
Theorem Get_insert c ctx key w :
  cacheMap c !! key = None →
  Get zero c ctx key w =
    Returns (data (computed zero w), (produced w).2,
             with_cacheMap (<[key := computed zero w]> (cacheMap c)) c,
             [Produce ctx key; CloseReady key])
  ∧ closed_count key [Produce ctx key; CloseReady key] = 1%nat
  ∧ created (computed zero w) = now_new w
  ∧ ((produced w).2 = true →
       data (computed zero w) = (produced w).1
       ∧ lastUsed (computed zero w) = now_used w)
  ∧ ((produced w).2 = false →
       data (computed zero w) = zero ∧ lastUsed (computed zero w) = 0).
Proof.
  intros Hnone. split_and!.
  - unfold Get, haxmap.GetOrCompute. rewrite Hnone.
    destruct (produced w) as [d ok] eqn:Hp.
    unfold computed. rewrite Hp. simpl.
    destruct ok; simpl; by rewrite insert_insert_eq.
  - unfold closed_count. simpl.
    rewrite filter_cons_False by (simpl; congruence).
    rewrite filter_cons_True by (simpl; by rewrite bool_decide_eq_true_2).
    done.
  - done.
  - intros Hok. unfold computed. by rewrite Hok.
  - intros Hok. unfold computed. by rewrite Hok.
Qed.

(** C3 (amended).  [Get] on a slot that exists already.  While the gate is
    unresolved a caller whose context is done returns [(value, false)] and
    changes nothing, and a caller whose context is not done waits.  Once the
    [select] takes the gate case, or when the slot has no gate, [Get]
    returns [(value, false)] and changes nothing if [lastUsed] is unset, and
    stamps [lastUsed] and returns [(value, true)] otherwise.  When the gate
    is resolved and the context is done as well, the [select] may take
    either case: on the context case [Get] returns [(value, false)] and
    changes nothing, whatever [lastUsed] is.  A slot whose first computation
    failed answers [found = false] to every call and is left as it is. *)
Theorem Get_loaded c ctx key e :
  cacheMap c !! key = Some e →
  (∀ w, ready e = open_chan → ctx_done w = true →
        Get zero c ctx key w = Returns (data e, false, c, []))
  ∧ (∀ w, ready e = open_chan → ctx_done w = false →
          Get zero c ctx key w = Blocks)
  ∧ (∀ w, passes_gate e w → lastUsed e = 0 →
          Get zero c ctx key w = Returns (data e, false, c, []))
  ∧ (∀ w, passes_gate e w → lastUsed e ≠ 0 →
          Get zero c ctx key w =
            Returns (data e, true,
                     with_cacheMap (<[key := with_lastUsed (now_used w) e]>
                                      (cacheMap c)) c, []))
  ∧ (∀ w, ready e = closed_chan → ctx_done w = true →
          pick w = case_ctx_Done →
          Get zero c ctx key w = Returns (data e, false, c, []))
  ∧ (ready e ≠ open_chan → lastUsed e = 0 →
     ∀ w, Get zero c ctx key w = Returns (data e, false, c, [])).
Proof.
  intros He.
  assert (Hzero : lastUsed e = 0 → Time_IsZero (lastUsed e) = true).
  { intros ->. done. }
  assert (Hnz : lastUsed e ≠ 0 → Time_IsZero (lastUsed e) = false).
  { intros Hne. unfold Time_IsZero. by apply bool_decide_eq_false_2. }
  split_and!.
  - intros w Hopen Hdone. rewrite (Get_on_slot_unfold _ _ _ _ _ He).
    unfold await, select. rewrite Hopen, Hdone. done.
  - intros w Hopen Hdone. rewrite (Get_on_slot_unfold _ _ _ _ _ He).
    unfold await, select. rewrite Hopen, Hdone. done.
  - intros w Hpass Hlu. rewrite (Get_on_slot_unfold _ _ _ _ _ He).
    rewrite (await_passes _ _ Hpass). by rewrite Hzero.
  - intros w Hpass Hlu. rewrite (Get_on_slot_unfold _ _ _ _ _ He).
    rewrite (await_passes _ _ Hpass). by rewrite Hnz.
  - intros w Hclosed Hdone Hpick. rewrite (Get_on_slot_unfold _ _ _ _ _ He).
    unfold await, select. rewrite Hclosed, Hdone, Hpick. done.
  - intros Hready Hlu w. rewrite (Get_on_slot_unfold _ _ _ _ _ He).
    rewrite (Hzero Hlu). unfold await, select.
    destruct (ready e); [done| congruence |].
    simpl. by destruct (ctx_done w), (pick w).
Qed.

End get_facts.

(** *** The cache of the package's test: string keys, [int] values *)

Definition c0 : Cache (K:=string) (V:=Z) := New 3000000000 3600000000000.

(** A first [Get] whose producer takes 150ns and succeeds. *)
Definition w0 : get_env (V:=Z) :=
  {| now_new := 100; ctx_done := false; pick := case_ready;
     produced := (3, true); now_used := 250 |}.

Definition e1 : element (V:=Z) :=
  {| data := 3; lastUsed := 250; created := 100; ready := closed_chan |}.

Definition c1 : Cache (K:=string) (V:=Z) :=
  with_cacheMap (<["one" := e1]> (cacheMap c0)) c0.

(** A later [Get] whose context is done already; the [select] takes that
    case. *)
Definition w1 : get_env (V:=Z) :=
  {| now_new := 300; ctx_done := true; pick := case_ctx_Done;
     produced := (3, true); now_used := 310 |}.

(** A later [Get] whose context is not done. *)
Definition w2 : get_env (V:=Z) :=
  {| now_new := 300; ctx_done := false; pick := case_ctx_Done;
     produced := (3, true); now_used := 310 |}.

Lemma c1_lookup : cacheMap c1 !! "one" = Some e1.
Proof. vm_compute. reflexivity. Qed.

(** C2, counterexample.  The producer succeeds, and the slot's [created]
    stamp is the clock read at the insertion (100), not the clock read when
    the producer has returned (250). *)
Lemma Get_insert_created_not_restamped :
  cacheMap c0 !! "one" = None
  ∧ Get 0 c0 (CallerCtx 0) "one" w0 =
      Returns (3, true, c1, [Produce (CallerCtx 0) "one"; CloseReady "one"])
  ∧ ¬ stamped_both c1 "one" (now_used w0).
Proof.
  split_and!.
  - vm_compute. reflexivity.
  - vm_compute. reflexivity.
  - intros (e & He & Hcreated & _).
    rewrite c1_lookup in He. injection He as <-.
    simpl in Hcreated. discriminate Hcreated.
Qed.

Lemma Get_insert_witness :
  cacheMap c0 !! "one" = None
  ∧ Get 0 c0 (CallerCtx 0) "one" w0 =
      Returns (3, true, with_cacheMap (<["one" := e1]> (cacheMap c0)) c0,
               [Produce (CallerCtx 0) "one"; CloseReady "one"]).
Proof.
  split; [reflexivity|].
  exact (proj1 (Get_insert 0 c0 (CallerCtx 0) "one" w0 eq_refl)).
Defined.

(** C3, counterexample.  The gate of the slot is resolved and [lastUsed] is
    set, yet a caller whose context is done gets [found = false] and the
    slot is not stamped: the result does not depend on [lastUsed] alone. *)
Lemma Get_loaded_ctx_done_after_gate :
  cacheMap c1 !! "one" = Some e1
  ∧ ready e1 = closed_chan
  ∧ Time_IsZero (lastUsed e1) = false
  ∧ Get 0 c1 (CallerCtx 1) "one" w1 = Returns (3, false, c1, [])
  ∧ ¬ by_lastUsed 0 c1 (CallerCtx 1) "one" w1 e1.
Proof.
  split_and!; try (vm_compute; reflexivity).
  unfold by_lastUsed. intros Hget.
  assert (Hrun : Get 0 c1 (CallerCtx 1) "one" w1 = Returns (3, false, c1, []))
    by (vm_compute; reflexivity).
  rewrite Hrun in Hget. simpl in Hget. discriminate Hget.
Qed.

Lemma Get_loaded_witness :
  cacheMap c1 !! "one" = Some e1
  ∧ Get 0 c1 (CallerCtx 1) "one" w2 =
      Returns (3, true,
               with_cacheMap (<["one" := with_lastUsed 310 e1]> (cacheMap c1))
                 c1, []).
Proof.
  split; [exact c1_lookup|].
  destruct (Get_loaded 0 c1 (CallerCtx 1) "one" e1 c1_lookup)
    as (_ & _ & _ & Hfound & _).
  apply (Hfound w2).
  - right. split; [reflexivity | left; reflexivity].
  - simpl. lia.
Defined.

End PointCacheGet.

(** ** Callers of [Get] racing for the first population of a key *)

Module PointCacheRace.
Import PointCache.

Section race.
Context `{Countable K} {V : Type}.
Variable zero : V.
Variable key : K.
Implicit Types (e : element (V:=V)) (p : pc (V:=V)) (tr : list (event (K:=K))).
Implicit Types (s : system (K:=K) (V:=V)) (o : obs (V:=V)).

(** What a caller that reads the slot after the gate returns. *)
Definition seen (e : element (V:=V)) : V * bool :=
  (data e, negb (Time_IsZero (lastUsed e))).

(** The caller that inserted the slot, and what it has done so far. *)
Definition owner_ok p e tr : Prop :=
  match p with
  | at_refreshFunc =>
      data e = zero ∧ lastUsed e = 0 ∧ ready e = open_chan
      ∧ produced_count key tr = 0%nat
  | at_store _ =>
      data e = zero ∧ lastUsed e = 0 ∧ ready e = open_chan
      ∧ produced_count key tr = 1%nat
  | at_close ret =>
      ret = seen e ∧ ready e = open_chan ∧ produced_count key tr = 1%nat
  | returned ret_computed ret =>
      ret = seen e ∧ ready e = closed_chan ∧ produced_count key tr = 1%nat
  | _ => False
  end.

(** A caller that found the slot. *)
Definition waiter_ok p e : Prop :=
  match p with
  | at_GetOrCompute | at_select | returned ret_ctx_done _ => True
  | at_lastUsed => ready e = closed_chan
  | returned ret_failed ret | returned ret_found ret =>
      ready e = closed_chan ∧ ret = seen e
  | _ => False
  end.

(** The invariant of a populated slot, for a list of callers. *)
Definition held (ts : list (pc (V:=V))) e tr : Prop :=
  ∃ owner p,
    ts !! owner = Some p
    ∧ owner_ok p e tr
    ∧ ∀ tid p', tid ≠ owner → ts !! tid = Some p' → waiter_ok p' e.

Definition Inv s : Prop :=
  match sys_map s !! key with
  | None =>
      (∀ tid p, sys_threads s !! tid = Some p → p = at_GetOrCompute)
      ∧ produced_count key (sys_trace s) = 0%nat
  | Some e =>
      ∃ owner p,
        sys_threads s !! owner = Some p
        ∧ owner_ok p e (sys_trace s)
        ∧ ∀ tid p', tid ≠ owner → sys_threads s !! tid = Some p' →
                    waiter_ok p' e
  end.

(** A caller has returned from [Get] past the gate: it computed the value
    itself, or it waited for the population. *)
Definition past_gate (by_ : exit) : Prop := by_ ≠ ret_ctx_done.

Definition clock_set (sched : list (nat * obs (V:=V))) : Prop :=
  Forall (λ x, o_now x.2 ≠ 0) sched.

End race.

Section race_facts.
Context `{Countable K} {V : Type}.
Variable zero : V.
Variable key : K.
Implicit Types (e : element (V:=V)) (p : pc (V:=V)) (tr : list (event (K:=K))).
Implicit Types (s : system (K:=K) (V:=V)) (o : obs (V:=V)).

Lemma produced_count_app tr1 tr2 :
  produced_count key (tr1 ++ tr2)
  = (produced_count key tr1 + produced_count key tr2)%nat.
Proof. unfold produced_count. by rewrite filter_app, length_app. Qed.

Lemma produced_count_Produce ctx :
  produced_count key [Produce ctx key] = 1%nat.
Proof.
  unfold produced_count.
  rewrite filter_cons_True by (simpl; by rewrite bool_decide_eq_true_2).
  done.
Qed.

Lemma produced_count_CloseReady k :
  produced_count key [CloseReady k] = 0%nat.
Proof.
  unfold produced_count. by rewrite filter_cons_False by (simpl; congruence).
Qed.

Lemma waiter_ok_open p e e' :
  ready e = open_chan → waiter_ok p e → waiter_ok p e'.
Proof.
  intros Hopen. destruct p as [| | | | | |[] ?|]; simpl; try done.
  - congruence.
  - intros [? _]. congruence.
  - intros [? _]. congruence.
Qed.

Lemma seen_with_lastUsed e now :
  lastUsed e ≠ 0 → now ≠ 0 → seen (with_lastUsed now e) = seen e.
Proof.
  intros He Hnow. unfold seen, Time_IsZero. simpl.
  by rewrite !bool_decide_eq_false_2.
Qed.

Lemma waiter_ok_stamp p e now :
  lastUsed e ≠ 0 → now ≠ 0 → waiter_ok p e → waiter_ok p (with_lastUsed now e).
Proof.
  intros He Hnow. destruct p as [| | | | | |[] ?|]; simpl; try done.
  - intros [? ?]. by rewrite seen_with_lastUsed.
  - intros [? ?]. by rewrite seen_with_lastUsed.
Qed.

Lemma owner_ok_stamp p e tr now :
  lastUsed e ≠ 0 → now ≠ 0 → owner_ok zero key p e tr →
  owner_ok zero key p (with_lastUsed now e) tr.
Proof.
  intros He Hnow. destruct p as [| | | | | |[] ?|]; simpl; try done.
  - intros (_ & ? & _). done.
  - intros (_ & ? & _). done.
  - intros (? & ? & ?). by rewrite seen_with_lastUsed.
  - intros (? & ? & ?). by rewrite seen_with_lastUsed.
Qed.

Lemma owner_ok_not_nil p e tr : owner_ok zero key p e tr → ready e ≠ nil_chan.
Proof.
  destruct p as [| | | | | |[] ?|]; simpl; try done;
    intros Hown; destruct_and!; congruence.
Qed.

Lemma Inv_start n (m : gmap K (element (V:=V))) :
  m !! key = None → Inv zero key (start n m).
Proof.
  intros Hm. unfold Inv, start. simpl. rewrite Hm. split; [|done].
  intros tid p Hp. apply lookup_replicate in Hp as [-> _]. done.
Qed.

Lemma held_owner_moves ts owner e e' tr' p' :
  (owner < length ts)%nat →
  (∀ tid p, tid ≠ owner → ts !! tid = Some p → waiter_ok p e) →
  (∀ p, waiter_ok p e → waiter_ok p e') →
  owner_ok zero key p' e' tr' →
  held zero key (<[owner := p']> ts) e' tr'.
Proof.
  intros Hlt Hothers Hstable Hown. exists owner, p'. split_and!.
  - by apply list_lookup_insert_eq.
  - done.
  - intros tid p Hne Hp. rewrite list_lookup_insert_ne in Hp by done.
    eauto.
Qed.

Lemma held_waiter_moves ts tid owner po e e' tr' p' :
  (tid < length ts)%nat → tid ≠ owner →
  ts !! owner = Some po →
  (∀ tid' p, tid' ≠ owner → ts !! tid' = Some p → waiter_ok p e) →
  (∀ p, waiter_ok p e → waiter_ok p e') →
  owner_ok zero key po e' tr' →
  waiter_ok p' e' →
  held zero key (<[tid := p']> ts) e' tr'.
Proof.
  intros Hlt Hne Hpo Hothers Hstable Hown Hp'.
  exists owner, po. split_and!.
  - by rewrite list_lookup_insert_ne.
  - done.
  - intros tid' p Hne' Hp.
    destruct (decide (tid' = tid)) as [->|Hne''].
    + rewrite list_lookup_insert_eq in Hp by done. by injection Hp as <-.
    + rewrite list_lookup_insert_ne in Hp by done. eauto.
Qed.

Lemma Inv_step s tid o :
  o_now o ≠ 0 → Inv zero key s → Inv zero key (sys_step zero key tid o s).
Proof.
  intros Hnow HInv. unfold sys_step.
  destruct (sys_threads s !! tid) as [p|] eqn:Hp; [|done].
  destruct (step zero (CallerCtx tid) key o p (sys_map s))
    as [[[p' m'] evs]|] eqn:Hstep; [|done].
  assert (Hlt : (tid < length (sys_threads s))%nat) by by eapply lookup_lt_Some.
  unfold Inv in *. simpl.
  destruct (sys_map s !! key) as [e|] eqn:He.
  - destruct HInv as (owner & po & Hpo & Hown & Hothers).
    destruct (decide (tid = owner)) as [->|Hne].
    + rewrite Hpo in Hp. injection Hp as <-.
      destruct po as [| | | |[d ok]|ret|[] ret|]; simpl in Hown; try done;
        simpl in Hstep; rewrite ?He in Hstep; simpl in Hstep.
      * (* calls the producer *)
        injection Hstep as <- <- <-. rewrite He.
        apply (held_owner_moves _ _ e); [done|done|done|].
        destruct Hown as (? & ? & ? & Hcount). simpl. split_and!; try done.
        rewrite produced_count_app, Hcount, produced_count_Produce. done.
      * (* stores the result *)
        injection Hstep as <- <- <-. rewrite lookup_insert_eq.
        destruct Hown as (Hdata & Hlu & Hready & Hcount).
        apply (held_owner_moves _ _ e); [done|done| |].
        { intros p. by apply waiter_ok_open. }
        simpl. rewrite app_nil_r. split_and!; [|by destruct ok|done].
        unfold seen. destruct ok; simpl.
        -- unfold Time_IsZero. by rewrite bool_decide_eq_false_2.
        -- by rewrite Hlu.
      * (* runs the deferred close *)
        destruct Hown as (Hret & Hready & Hcount).
        rewrite Hready in Hstep. simpl in Hstep.
        injection Hstep as <- <- <-. rewrite lookup_insert_eq.
        apply (held_owner_moves _ _ e); [done|done| |].
        { intros p. by apply waiter_ok_open. }
        simpl. split_and!; [done|done|].
        rewrite produced_count_app, Hcount, produced_count_CloseReady. done.
    + pose proof (Hothers tid p Hne Hp) as Hw.
      pose proof (owner_ok_not_nil _ _ _ Hown) as Hnn.
      destruct p as [| | | | | |[] ret|]; simpl in Hw; try done;
        simpl in Hstep; rewrite ?He in Hstep; simpl in Hstep.
      * (* finds the slot *)
        unfold haxmap.GetOrCompute in Hstep. rewrite He in Hstep.
        injection Hstep as <- <- <-. rewrite He, app_nil_r.
        by apply (held_waiter_moves _ _ owner po e).
      * (* waits in the select *)
        unfold await in Hstep. rewrite decide_False in Hstep by done.
        destruct (select (o_ctx_done o) (ready e) (o_pick o)) as [[]|] eqn:Hsel;
          [| |done]; injection Hstep as <- <- <-; rewrite He, app_nil_r.
        -- by apply (held_waiter_moves _ _ owner po e).
        -- apply (held_waiter_moves _ _ owner po e); try done.
           simpl. unfold select in Hsel.
           destruct (ready e), (o_ctx_done o); simpl in Hsel; try done.
      * (* reads lastUsed *)
        destruct (Time_IsZero (lastUsed e)) eqn:Hz;
          injection Hstep as <- <- <-; rewrite app_nil_r.
        -- rewrite He. apply (held_waiter_moves _ _ owner po e); try done.
           simpl. split; [done|]. unfold seen. by rewrite Hz.
        -- rewrite lookup_insert_eq.
           assert (Hlu : lastUsed e ≠ 0).
           { unfold Time_IsZero in Hz. by apply bool_decide_eq_false_1 in Hz. }
           apply (held_waiter_moves _ _ owner po e); try done.
           ++ intros p. by apply waiter_ok_stamp.
           ++ by apply owner_ok_stamp.
           ++ simpl. split; [done|]. rewrite seen_with_lastUsed by done.
              unfold seen. by rewrite Hz.
  - destruct HInv as [Hall Hcount].
    rewrite (Hall _ _ Hp) in Hstep. simpl in Hstep.
    unfold haxmap.GetOrCompute in Hstep. rewrite He in Hstep.
    injection Hstep as <- <- <-. rewrite lookup_insert_eq, app_nil_r.
    exists tid, at_refreshFunc. split_and!.
    + by apply list_lookup_insert_eq.
    + done.
    + intros tid' p0 Hne Hp0. rewrite list_lookup_insert_ne in Hp0 by done.
      by rewrite (Hall _ _ Hp0).
Qed.

Lemma Inv_run sched s :
  clock_set sched → Inv zero key s → Inv zero key (run zero key sched s).
Proof.
  unfold run, clock_set. revert s.
  induction sched as [|[tid o] sched IH]; intros s Hclock HInv; simpl; [done|].
  apply Forall_cons in Hclock as [Hnow Hclock].
  apply IH; [done|]. by apply Inv_step.
Qed.

Lemma owner_ok_count p e tr :
  owner_ok zero key p e tr →
  produced_count key tr = 1%nat
  ∨ (produced_count key tr = 0%nat ∧ ready e = open_chan).
Proof.
  destruct p as [| | | | | |[] ?|]; simpl; try done;
    intros Hown; destruct_and!; auto.
Qed.

Lemma held_returned ts e tr tid by_ ret :
  held zero key ts e tr → ts !! tid = Some (returned by_ ret) → past_gate by_ →
  ret = seen e ∧ produced_count key tr = 1%nat.
Proof.
  intros (owner & po & Hpo & Hown & Hothers) Htid Hpast.
  destruct (decide (tid = owner)) as [->|Hne].
  - rewrite Hpo in Htid. injection Htid as ->.
    destruct by_; simpl in Hown; try done. by destruct Hown as (? & _ & ?).
  - pose proof (Hothers _ _ Hne Htid) as Hw.
    assert (Hclosed : ready e = closed_chan ∧ ret = seen e).
    { destruct by_; simpl in Hw; try done. }
    destruct Hclosed as [Hclosed ->]. split; [done|].
    destruct (owner_ok_count _ _ _ Hown) as [?|[_ Hopen]]; [done|congruence].
Qed.

Lemma sys_step_length s tid o :
  length (sys_threads (sys_step zero key tid o s)) = length (sys_threads s).
Proof.
  unfold sys_step. destruct (sys_threads s !! tid); [|done].
  destruct (step zero (CallerCtx tid) key o p (sys_map s))
    as [[[p' m'] evs]|]; [|done].
  simpl. apply length_insert.
Qed.

Lemma run_length sched s :
  length (sys_threads (run zero key sched s)) = length (sys_threads s).
Proof.
  unfold run. revert s.
  induction sched as [|[tid o] sched IH]; intros s; simpl; [done|].
  by rewrite IH, sys_step_length.
Qed.

(** C1.  Callers of [Get] race for a key that is absent.  Whatever the
    schedule, the producer is called at most once for the key; it has been
    called exactly once as soon as one caller has returned past the gate
    (the caller that inserted the slot, or one that waited for it), and so
    when all callers have returned; and all the callers that returned past
    the gate returned the same pair. *)
Theorem Get_coalesces n (m : gmap K (element (V:=V))) sched :
  m !! key = None → clock_set sched →
  let s := run zero key sched (start n m) in
  (produced_count key (sys_trace s) ≤ 1)%nat
  ∧ (∀ tid by_ ret,
       sys_threads s !! tid = Some (returned by_ ret) → past_gate by_ →
       produced_count key (sys_trace s) = 1%nat)
  ∧ ((0 < n)%nat →
     (∀ tid p, sys_threads s !! tid = Some p → ∃ by_ ret, p = returned by_ ret) →
     produced_count key (sys_trace s) = 1%nat)
  ∧ (∀ tid1 tid2 by1 by2 ret1 ret2,
       sys_threads s !! tid1 = Some (returned by1 ret1) → past_gate by1 →
       sys_threads s !! tid2 = Some (returned by2 ret2) → past_gate by2 →
       ret1 = ret2).
Proof.
  intros Hm Hclock s.
  assert (HInv : Inv zero key s).
  { apply Inv_run; [done|]. by apply Inv_start. }
  assert (Hlen : length (sys_threads s) = n).
  { unfold s. rewrite run_length. apply length_replicate. }
  unfold Inv in HInv. destruct (sys_map s !! key) as [e|].
  - fold (held zero key (sys_threads s) e (sys_trace s)) in HInv. split_and!.
    + destruct HInv as (owner & po & _ & Hown & _).
      destruct (owner_ok_count _ _ _ Hown) as [->|[-> _]]; lia.
    + intros tid by_ ret Htid Hpast.
      by destruct (held_returned _ _ _ _ _ _ HInv Htid Hpast).
    + intros _ Hall. destruct HInv as (owner & po & Hpo & Hown & _).
      destruct (Hall _ _ Hpo) as (by_ & ret & ->).
      destruct by_; simpl in Hown; try done. by destruct Hown as (_ & _ & ?).
    + intros tid1 tid2 by1 by2 ret1 ret2 Htid1 Hpast1 Htid2 Hpast2.
      destruct (held_returned _ _ _ _ _ _ HInv Htid1 Hpast1) as [-> _].
      by destruct (held_returned _ _ _ _ _ _ HInv Htid2 Hpast2) as [-> _].
  - destruct HInv as [Hall Hcount]. split_and!.
    + lia.
    + intros tid by_ ret Htid _. by pose proof (Hall _ _ Htid).
    + intros Hn Hret.
      destruct (lookup_lt_is_Some_2 (sys_threads s) 0) as [p Hp]; [lia|].
      destruct (Hret _ _ Hp) as (by_ & ret & ->).
      by pose proof (Hall _ _ Hp).
    + intros tid1 tid2 by1 by2 ret1 ret2 Htid1 _. by pose proof (Hall _ _ Htid1).
Qed.

End race_facts.

(** *** One caller alone *)

Section coherence.
Context `{Countable K} {V : Type}.
Variable zero : V.
Variable key : K.

(** What a caller observes at the clock reading [now], in the environment
    [w] of a call of [Get] that runs alone. *)
Definition obs_of (w : get_env (V:=V)) (now : Time) : obs :=
  {| o_now := now; o_ctx_done := ctx_done w; o_pick := pick w;
     o_produced := produced w |}.

(** The schedule of one caller that runs alone to the end of [Get]. *)
Definition alone (w : get_env (V:=V)) : list (nat * obs (V:=V)) :=
  [(0%nat, obs_of w (now_new w)); (0%nat, obs_of w (now_used w));
   (0%nat, obs_of w (now_used w)); (0%nat, obs_of w (now_used w))].

Lemma sys_step_moves p m tr o p' m' evs :
  step zero (CallerCtx 0) key o p m = Some (p', m', evs) →
  sys_step zero key 0 o {| sys_map := m; sys_threads := [p]; sys_trace := tr |}
  = {| sys_map := m'; sys_threads := [p']; sys_trace := tr ++ evs |}.
Proof. intros Hstep. unfold sys_step. simpl. by rewrite Hstep. Qed.

Lemma sys_step_stays p m tr o :
  step zero (CallerCtx 0) key o p m = None →
  sys_step zero key 0 o {| sys_map := m; sys_threads := [p]; sys_trace := tr |}
  = {| sys_map := m; sys_threads := [p]; sys_trace := tr |}.
Proof. intros Hstep. unfold sys_step. simpl. by rewrite Hstep. Qed.

(** [Get] is the run of its atomic steps by one caller without
    interference. *)
Lemma Get_as_steps (c : Cache (K:=K) (V:=V)) w :
  let s := run zero key (alone w) (start 1 (cacheMap c)) in
  match Get zero c (CallerCtx 0) key w with
  | Returns (ret, c', tr) =>
      (∃ by_, sys_threads s = [returned by_ ret])
      ∧ sys_map s = cacheMap c' ∧ sys_trace s = tr
  | Blocks => sys_threads s = [at_select] ∧ sys_map s = cacheMap c
  | Panics => False
  end.
Proof.
  unfold run, alone, start, Get, haxmap.GetOrCompute.
  cbn [foldl replicate].
  destruct (cacheMap c !! key) as [e|] eqn:He.
  - rewrite (sys_step_moves _ _ _ _ at_select (cacheMap c) [])
      by (simpl; unfold haxmap.GetOrCompute; by rewrite He).
    destruct (await e (ctx_done w) (pick w)) as [[]|] eqn:Hw.
    + rewrite (sys_step_moves _ _ _ _
                 (returned ret_ctx_done (data e, false)) (cacheMap c) [])
        by (simpl; rewrite He; simpl; by rewrite Hw).
      rewrite !sys_step_stays by done. simpl. eauto.
    + rewrite (sys_step_moves _ _ _ _ at_lastUsed (cacheMap c) [])
        by (simpl; rewrite He; simpl; by rewrite Hw).
      destruct (Time_IsZero (lastUsed e)) eqn:Hz.
      * rewrite (sys_step_moves _ _ _ _
                   (returned ret_failed (data e, false)) (cacheMap c) [])
          by (simpl; rewrite He; simpl; by rewrite Hz).
        rewrite !sys_step_stays by done. simpl. eauto.
      * rewrite (sys_step_moves _ _ _ _
                   (returned ret_found (data e, true))
                   (<[key := with_lastUsed (now_used w) e]> (cacheMap c)) [])
          by (simpl; rewrite He; simpl; by rewrite Hz).
        rewrite !sys_step_stays by done. simpl. eauto.
    + rewrite !sys_step_stays by (simpl; rewrite He; simpl; by rewrite Hw).
      done.
  - rewrite (sys_step_moves _ _ _ _ at_refreshFunc
               (<[key := new_element zero (now_new w)]> (cacheMap c)) [])
      by (simpl; unfold haxmap.GetOrCompute; by rewrite He).
    rewrite (sys_step_moves _ _ _ _ (at_store (produced w)) _
               [Produce (CallerCtx 0) key]) by done.
    destruct (produced w) as [d []] eqn:Hp;
      (erewrite sys_step_moves
         by (simpl; rewrite lookup_insert_eq; simpl; reflexivity));
      (erewrite sys_step_moves
         by (simpl; rewrite lookup_insert_eq; simpl; reflexivity));
      simpl; rewrite !insert_insert_eq; eauto.
Qed.

End coherence.

(** *** Three callers of [Get("one")] on the empty cache *)

Definition o_at (now : Time) : obs (V:=Z) :=
  {| o_now := now; o_ctx_done := false; o_pick := case_ready;
     o_produced := (3, true) |}.

(** Caller 0 inserts the slot; callers 1 and 2 find it and wait (their
    moves at 103 and 251 stay blocked in the [select]); caller 0 calls the
    producer, stores the result and resolves the gate; the others then read
    the slot. *)
Definition sched3 : list (nat * obs (V:=Z)) :=
  [(0%nat, o_at 100); (1%nat, o_at 101); (2%nat, o_at 102);
   (1%nat, o_at 103); (0%nat, o_at 104); (0%nat, o_at 250);
   (2%nat, o_at 251); (0%nat, o_at 252); (1%nat, o_at 253);
   (1%nat, o_at 254); (2%nat, o_at 255); (2%nat, o_at 256)].

Lemma sched3_clock_set : clock_set sched3.
Proof.
  unfold clock_set, sched3.
  repeat (apply List.Forall_cons; [simpl; lia|]). apply List.Forall_nil.
Defined.

Lemma Get_coalesces_witness :
  (∅ : gmap string (element (V:=Z))) !! "one" = None
  ∧ clock_set sched3
  ∧ sys_threads (run 0 "one" sched3 (start 3 ∅)) =
      [returned ret_computed (3, true); returned ret_found (3, true);
       returned ret_found (3, true)]
  ∧ produced_count "one" (sys_trace (run 0 "one" sched3 (start 3 ∅))) = 1%nat.
Proof.
  split; [reflexivity|]. split; [exact sched3_clock_set|].
  split; [vm_compute; reflexivity|].
  apply (proj1 (proj2 (Get_coalesces 0 "one" 3 ∅ sched3
                         (lookup_empty "one") sched3_clock_set))
           0%nat ret_computed (3, true)).
  - vm_compute. reflexivity.
  - unfold past_gate. discriminate.
Defined.

End PointCacheRace.

(** ** The maintenance loop of [New] *)

Module PointCacheSweep.
Import PointCache.

Section policy.
Context `{Countable K} {V : Type}.
Implicit Types (e : element (V:=V)) (w : visit_env (V:=V)).

(** Rule 1 of the sweep: the entry is past [KeepTime]. *)
Definition expired (KeepTime : Duration) w e : bool :=
  bool_decide (0 < KeepTime)
  && bool_decide (KeepTime < time_Since (v_now_created w) (created e)).

(** Rule 2: the entry is younger than [RefreshTime]. *)
Definition fresh (RefreshTime : Duration) w e : bool :=
  bool_decide (time_Since (v_now_created w) (created e) < RefreshTime).

(** Rule 4: stale, read since it was made, and read recently. *)
Definition selected (RefreshTime KeepTime : Duration) w e : bool :=
  negb (expired KeepTime w e)
  && negb (fresh RefreshTime w e)
  && negb (Time_After (created e) (lastUsed e))
  && bool_decide (time_Since (v_now_used w) (lastUsed e) < shr RefreshTime 1).

(** The entry after a proactive refresh. *)
Definition refreshed w e : element :=
  if (v_produced w).2
  then with_data_created (v_produced w).1 (v_now_refreshed w) e
  else e.

(** The state of the sweep after the visit of an entry, when the lifecycle
    context is not cancelled. *)
Definition visited (RefreshTime KeepTime : Duration)
  (env : K → visit_env (V:=V)) (s : sweep_state (K:=K) (V:=V))
  (item : K * element (V:=V)) : sweep_state :=
  let '(key, e) := item in
  let w := env key in
  {| s_map :=
       if selected RefreshTime KeepTime w e && (v_produced w).2
       then <[key := refreshed w e]> (s_map s) else s_map s;
     s_toDelete :=
       if expired KeepTime w e then s_toDelete s ++ [key] else s_toDelete s;
     s_trace :=
       if selected RefreshTime KeepTime w e
       then s_trace s ++ [Produce (WithTimeout lifecycle (shr RefreshTime 1)) key]
       else s_trace s;
     s_cancelled := false |}.

Definition mark_cancelled (s : sweep_state (K:=K) (V:=V)) : sweep_state :=
  {| s_map := s_map s; s_toDelete := s_toDelete s; s_trace := s_trace s;
     s_cancelled := true |}.

(** The entry is younger than [RefreshTime] when the sweep of the cycle
    visits it, and not past a positive [KeepTime]. *)
Definition stays_fresh (RefreshTime KeepTime : Duration)
  (w : cycle_env (K:=K) (V:=V)) (key : K) e : Prop :=
  time_Since (v_now_created (visits w key)) (created e) < RefreshTime
  ∧ ¬ (0 < KeepTime
       ∧ KeepTime < time_Since (v_now_created (visits w key)) (created e)).

(** The walk of [sweep], before the batch delete. *)
Definition walk (c : Cache (K:=K) (V:=V)) (env : K → visit_env (V:=V))
  : sweep_state :=
  haxmap.ForEach (visit (RefreshTime c) (KeepTime c) env) (cacheMap c)
    (sweep_init c).

End policy.

Section sweep_facts.
Context `{Countable K} {V : Type}.
Variables RefreshTime KeepTime : Duration.
Variable env : K → visit_env (V:=V).
Implicit Types (e : element (V:=V)) (w : visit_env (V:=V)) (key : K).
Implicit Types (s : sweep_state (K:=K) (V:=V)).
Implicit Types (items : list (K * element (V:=V))).

Lemma visit_cancelled key e s :
  s_cancelled s || v_cancel (env key) = true →
  visit RefreshTime KeepTime env key e s = (mark_cancelled s, false).
Proof. intros Hc. unfold visit. by rewrite Hc. Qed.

Lemma visit_visited key e s :
  s_cancelled s = false → v_cancel (env key) = false →
  visit RefreshTime KeepTime env key e s
  = (visited RefreshTime KeepTime env s (key, e), true).
Proof.
  intros Hs Hc. unfold visit, visited, selected, expired, fresh, refreshed.
  rewrite Hs, Hc. simpl.
  destruct s as [m td tr cn]. simpl in *. subst cn.
  destruct (bool_decide (0 < KeepTime)
            && bool_decide (KeepTime < time_Since (v_now_created (env key))
                                         (created e))); simpl; [done|].
  destruct (bool_decide (time_Since (v_now_created (env key)) (created e)
                         < RefreshTime)); simpl; [done|].
  destruct (Time_After (created e) (lastUsed e)); simpl; [done|].
  destruct (bool_decide (time_Since (v_now_used (env key)) (lastUsed e)
                         < shr RefreshTime 1)); simpl; [|done].
  destruct (v_produced (env key)) as [d []]; simpl; done.
Qed.

Lemma visited_not_cancelled s item :
  s_cancelled (visited RefreshTime KeepTime env s item) = false.
Proof. by destruct item. Qed.

Lemma foldl_visited_not_cancelled items s :
  s_cancelled s = false →
  s_cancelled (foldl (visited RefreshTime KeepTime env) s items) = false.
Proof.
  revert s. induction items as [|item items IH]; intros s Hs; simpl; [done|].
  apply IH, visited_not_cancelled.
Qed.

(** The walk visits a prefix of the entries; it visits all of them unless
    it finds the lifecycle context cancelled. *)
Lemma ForEach_items_prefix items s :
  ∃ l1 l2, items = l1 ++ l2 ∧
    let t := foldl (visited RefreshTime KeepTime env) s l1 in
    (l2 = [] ∧ haxmap.ForEach_items (visit RefreshTime KeepTime env) items s = t)
    ∨ haxmap.ForEach_items (visit RefreshTime KeepTime env) items s
      = mark_cancelled t.
Proof.
  revert s. induction items as [|[key e] items IH]; intros s.
  - exists [], []. split; [done|]. left. done.
  - simpl. destruct (s_cancelled s || v_cancel (env key)) eqn:Hc.
    + rewrite visit_cancelled by done.
      exists [], ((key, e) :: items). split; [done|]. right. done.
    + apply orb_false_elim in Hc as [Hs Hc].
      rewrite visit_visited by done.
      destruct (IH (visited RefreshTime KeepTime env s (key, e)))
        as (l1 & l2 & -> & Hres).
      exists ((key, e) :: l1), l2. split; [done|]. done.
Qed.

Lemma foldl_visited_toDelete items s key :
  key ∈ s_toDelete (foldl (visited RefreshTime KeepTime env) s items)
  ↔ key ∈ s_toDelete s
    ∨ ∃ e, (key, e) ∈ items ∧ expired KeepTime (env key) e = true.
Proof.
  revert s. induction items as [|[k e] items IH]; intros s; simpl.
  - split; [auto|]. intros [?|(e & Hin & _)]; [done|].
    by apply elem_of_nil in Hin.
  - rewrite IH. simpl. split.
    + intros [Hin|(e' & Hin & Hexp)].
      * destruct (expired KeepTime (env k) e) eqn:Hexp; [|auto].
        apply elem_of_app in Hin as [Hin|Hin]; [auto|].
        apply list_elem_of_singleton in Hin as ->.
        right. exists e. split; [|done]. apply elem_of_cons. auto.
      * right. exists e'. split; [|done]. apply elem_of_cons. auto.
    + intros [Hin|(e' & Hin & Hexp)].
      * left. destruct (expired KeepTime (env k) e); [|done].
        apply elem_of_app. auto.
      * apply elem_of_cons in Hin as [Heq|Hin].
        -- injection Heq as -> ->. left. rewrite Hexp.
           apply elem_of_app. right. by apply list_elem_of_singleton.
        -- right. eauto.
Qed.

Lemma foldl_visited_trace items s ev :
  ev ∈ s_trace (foldl (visited RefreshTime KeepTime env) s items)
  ↔ ev ∈ s_trace s
    ∨ ∃ key e, (key, e) ∈ items
        ∧ selected RefreshTime KeepTime (env key) e = true
        ∧ ev = Produce (WithTimeout lifecycle (shr RefreshTime 1)) key.
Proof.
  revert s. induction items as [|[k e] items IH]; intros s; simpl.
  - split; [auto|]. intros [?|(k & e & Hin & _)]; [done|].
    by apply elem_of_nil in Hin.
  - rewrite IH. simpl. split.
    + intros [Hin|(k' & e' & Hin & Hsel & Hev)].
      * destruct (selected RefreshTime KeepTime (env k) e) eqn:Hsel; [|auto].
        apply elem_of_app in Hin as [Hin|Hin]; [auto|].
        apply list_elem_of_singleton in Hin as ->.
        right. exists k, e. split_and!; [|done|done]. apply elem_of_cons. auto.
      * right. exists k', e'. split_and!; [|done|done]. apply elem_of_cons. auto.
    + intros [Hin|(k' & e' & Hin & Hsel & Hev)].
      * left. destruct (selected RefreshTime KeepTime (env k) e); [|done].
        apply elem_of_app. auto.
      * apply elem_of_cons in Hin as [Heq|Hin].
        -- injection Heq as -> ->. left. rewrite Hsel.
           apply elem_of_app. right. by apply list_elem_of_singleton.
        -- right. eauto 6.
Qed.

Lemma foldl_visited_map_other items s key :
  key ∉ items.*1 →
  s_map (foldl (visited RefreshTime KeepTime env) s items) !! key
  = s_map s !! key.
Proof.
  revert s. induction items as [|[k e] items IH]; intros s Hnotin; simpl;
    [done|].
  simpl in Hnotin. apply not_elem_of_cons in Hnotin as [Hne Hnotin].
  rewrite IH by done. simpl.
  destruct (selected RefreshTime KeepTime (env k) e && (v_produced (env k)).2);
    [|done].
  by rewrite lookup_insert_ne.
Qed.

Lemma foldl_visited_map_visited items s key e :
  NoDup items.*1 → (key, e) ∈ items →
  s_map (foldl (visited RefreshTime KeepTime env) s items) !! key
  = if selected RefreshTime KeepTime (env key) e && (v_produced (env key)).2
    then Some (refreshed (env key) e) else s_map s !! key.
Proof.
  revert s. induction items as [|[k e'] items IH]; intros s Hnd Hin.
  - by apply elem_of_nil in Hin.
  - simpl in Hnd. apply NoDup_cons in Hnd as [Hk Hnd].
    apply elem_of_cons in Hin as [Heq|Hin]; simpl.
    + injection Heq as <- <-.
      rewrite foldl_visited_map_other by done. simpl.
      destruct (selected RefreshTime KeepTime (env key) e
                && (v_produced (env key)).2); [|done].
      by rewrite lookup_insert_eq.
    + rewrite IH by done.
      destruct (selected RefreshTime KeepTime (env key) e
                && (v_produced (env key)).2); [done|].
      simpl.
      assert (Hne : k ≠ key).
      { intros ->. apply Hk. apply list_elem_of_fmap. by exists (key, e). }
      destruct (selected RefreshTime KeepTime (env k) e'
                && (v_produced (env k)).2); [|done].
      by rewrite lookup_insert_ne.
Qed.

End sweep_facts.

Section cycle_facts.
Context `{Countable K} {V : Type}.
Implicit Types (c : Cache (K:=K) (V:=V)) (e : element (V:=V)) (key : K).
Implicit Types (env : K → visit_env (V:=V)).

Lemma walk_shape c env :
  ∃ l1 l2, map_to_list (cacheMap c) = l1 ++ l2
    ∧ (s_cancelled (walk c env) = false → l2 = [])
    ∧ let t := foldl (visited (RefreshTime c) (KeepTime c) env)
                 (sweep_init c) l1 in
      s_map (walk c env) = s_map t
      ∧ s_toDelete (walk c env) = s_toDelete t
      ∧ s_trace (walk c env) = s_trace t.
Proof.
  unfold walk, haxmap.ForEach.
  destruct (ForEach_items_prefix (RefreshTime c) (KeepTime c) env
              (map_to_list (cacheMap c)) (sweep_init c))
    as (l1 & l2 & Hsplit & [[Hl2 Hres] | Hres]);
    exists l1, l2; (split; [done|]); rewrite Hres; simpl; split_and!; done.
Qed.

Lemma prefix_lookup c l1 l2 key e :
  map_to_list (cacheMap c) = l1 ++ l2 → (key, e) ∈ l1 →
  cacheMap c !! key = Some e.
Proof.
  intros Hsplit Hin. apply elem_of_map_to_list. rewrite Hsplit.
  apply elem_of_app. auto.
Qed.

Lemma prefix_NoDup c l1 l2 :
  map_to_list (cacheMap c) = l1 ++ l2 → NoDup l1.*1.
Proof.
  intros Hsplit.
  pose proof (NoDup_fst_map_to_list (cacheMap c)) as Hnd.
  rewrite Hsplit, fmap_app in Hnd. by apply NoDup_app in Hnd as [? _].
Qed.

Lemma sweep_toDelete_expired c env key :
  key ∈ s_toDelete (sweep c env) →
  ∃ e, cacheMap c !! key = Some e ∧ expired (KeepTime c) (env key) e = true.
Proof.
  unfold sweep. fold (walk c env). simpl.
  destruct (walk_shape c env) as (l1 & l2 & Hsplit & _ & _ & -> & _).
  rewrite foldl_visited_toDelete. simpl.
  intros [Hin|(e & Hin & Hexp)]; [by apply elem_of_nil in Hin|].
  exists e. split; [|done]. by eapply prefix_lookup.
Qed.

Lemma sweep_toDelete_complete c env key e :
  s_cancelled (sweep c env) = false →
  cacheMap c !! key = Some e → expired (KeepTime c) (env key) e = true →
  key ∈ s_toDelete (sweep c env).
Proof.
  unfold sweep. fold (walk c env). simpl. intros Hnc He Hexp.
  destruct (walk_shape c env) as (l1 & l2 & Hsplit & Hall & _ & -> & _).
  rewrite (Hall Hnc), app_nil_r in Hsplit.
  apply foldl_visited_toDelete. right. exists e. split; [|done].
  rewrite <- Hsplit. by apply elem_of_map_to_list.
Qed.

Lemma sweep_trace_selected c env ev :
  ev ∈ s_trace (sweep c env) →
  ∃ key e, cacheMap c !! key = Some e
    ∧ selected (RefreshTime c) (KeepTime c) (env key) e = true
    ∧ ev = Produce (WithTimeout lifecycle (shr (RefreshTime c) 1)) key.
Proof.
  unfold sweep. fold (walk c env). simpl.
  destruct (walk_shape c env) as (l1 & l2 & Hsplit & _ & _ & _ & ->).
  rewrite foldl_visited_trace. simpl.
  intros [Hin|(key & e & Hin & Hsel & Hev)]; [by apply elem_of_nil in Hin|].
  exists key, e. split_and!; [|done|done]. by eapply prefix_lookup.
Qed.

Lemma sweep_trace_complete c env key e :
  s_cancelled (sweep c env) = false →
  cacheMap c !! key = Some e →
  selected (RefreshTime c) (KeepTime c) (env key) e = true →
  Produce (WithTimeout lifecycle (shr (RefreshTime c) 1)) key
    ∈ s_trace (sweep c env).
Proof.
  unfold sweep. fold (walk c env). simpl. intros Hnc He Hsel.
  destruct (walk_shape c env) as (l1 & l2 & Hsplit & Hall & _ & _ & ->).
  rewrite (Hall Hnc), app_nil_r in Hsplit.
  apply foldl_visited_trace. right. exists key, e. split_and!; [|done|done].
  rewrite <- Hsplit. by apply elem_of_map_to_list.
Qed.

Lemma walk_map_None c env key :
  cacheMap c !! key = None → s_map (walk c env) !! key = None.
Proof.
  intros Hnone.
  destruct (walk_shape c env) as (l1 & l2 & Hsplit & _ & -> & _).
  rewrite foldl_visited_map_other; [done|].
  intros (x & -> & Hin)%list_elem_of_fmap. destruct x as [k e]. simpl in *.
  rewrite (prefix_lookup _ _ _ _ _ Hsplit Hin) in Hnone. done.
Qed.

Lemma walk_map_kept c env key e :
  cacheMap c !! key = Some e →
  selected (RefreshTime c) (KeepTime c) (env key) e && (v_produced (env key)).2
    = false →
  s_map (walk c env) !! key = Some e.
Proof.
  intros He Hsel.
  destruct (walk_shape c env) as (l1 & l2 & Hsplit & _ & -> & _).
  destruct (decide (key ∈ l1.*1)) as [Hin|Hnotin].
  - apply list_elem_of_fmap in Hin as ([k e'] & -> & Hin).
    pose proof (prefix_lookup _ _ _ _ _ Hsplit Hin) as He'. simpl in *.
    rewrite He in He'. injection He' as <-.
    rewrite (foldl_visited_map_visited _ _ _ _ _ _ e)
      by eauto using prefix_NoDup.
    by rewrite Hsel.
  - by rewrite foldl_visited_map_other.
Qed.

Lemma walk_map_visited c env key e :
  s_cancelled (walk c env) = false → cacheMap c !! key = Some e →
  s_map (walk c env) !! key
  = Some (if selected (RefreshTime c) (KeepTime c) (env key) e
          then refreshed (env key) e else e).
Proof.
  intros Hnc He.
  destruct (walk_shape c env) as (l1 & l2 & Hsplit & Hall & -> & _).
  pose proof (prefix_NoDup _ _ _ Hsplit) as Hnd.
  rewrite (Hall Hnc), app_nil_r in Hsplit.
  rewrite (foldl_visited_map_visited _ _ _ _ _ _ e);
    [|done|by rewrite <- Hsplit; apply elem_of_map_to_list].
  simpl. rewrite He. unfold refreshed.
  destruct (selected _ _ _ _), (v_produced (env key)).2; done.
Qed.

Lemma cacheMap_with_cacheMap c (m : gmap K (element (V:=V))) :
  cacheMap (with_cacheMap m c) = m.
Proof. done. Qed.

Lemma sweep_map c env key :
  s_map (sweep c env) !! key
  = if decide (key ∈ s_toDelete (sweep c env)) then None
    else s_map (walk c env) !! key.
Proof.
  unfold sweep. fold (walk c env). simpl. case_decide.
  - by apply Del_lookup_elem.
  - by apply Del_lookup_ne.
Qed.

Lemma sweep_cancelled c env :
  s_cancelled (sweep c env) = s_cancelled (walk c env).
Proof. done. Qed.

Lemma cycle_running c w :
  (cycle c w).2 = true →
  s_cancelled (sweep c (visits w)) = false
  ∧ (cycle c w).1.1 = with_cacheMap (s_map (sweep c (visits w))) c
  ∧ (cycle c w).1.2 = s_trace (sweep c (visits w)).
Proof.
  unfold cycle. destruct (cancelled c || cancel_in_sleep w); [done|].
  destruct (s_cancelled (sweep c (visits w)) || cancel_at_end w) eqn:Hend;
    [done|].
  apply orb_false_elim in Hend as [? _]. done.
Qed.

Lemma cycle_stopped c w :
  (cycle c w).2 = false → cacheMap (cycle c w).1.1 = ∅.
Proof.
  unfold cycle. destruct (cancelled c || cancel_in_sleep w); [done|].
  destruct (s_cancelled (sweep c (visits w)) || cancel_at_end w); done.
Qed.

Lemma cycle_trace c w ev :
  ev ∈ (cycle c w).1.2 → ev ∈ s_trace (sweep c (visits w)).
Proof.
  unfold cycle. destruct (cancelled c || cancel_in_sleep w).
  { simpl. intros Hin. by apply elem_of_nil in Hin. }
  destruct (s_cancelled (sweep c (visits w)) || cancel_at_end w); simpl; auto.
Qed.

Lemma selected_not_expired RT KT (w : visit_env (V:=V)) e :
  selected RT KT w e = true → expired KT w e = false.
Proof. unfold selected. destruct (expired KT w e); done. Qed.

Lemma fresh_not_selected RT KT (w : visit_env (V:=V)) e :
  fresh RT w e = true → selected RT KT w e = false.
Proof.
  unfold selected. intros ->. simpl. by rewrite andb_false_r.
Qed.

Lemma not_expired_not_deleted c env key e :
  cacheMap c !! key = Some e →
  expired (KeepTime c) (env key) e = false →
  key ∉ s_toDelete (sweep c env).
Proof.
  intros He Hexp (e' & He' & Hexp')%sweep_toDelete_expired. congruence.
Qed.

Lemma sweep_toDelete_nil c env :
  KeepTime c = 0 → s_toDelete (sweep c env) = [].
Proof.
  intros Hzero.
  destruct (s_toDelete (sweep c env)) as [|key l] eqn:Htd; [done|].
  assert (Hin : key ∈ s_toDelete (sweep c env)).
  { rewrite Htd. apply elem_of_cons. auto. }
  apply sweep_toDelete_expired in Hin as (e & _ & Hexp).
  unfold expired in Hexp. rewrite Hzero in Hexp.
  by rewrite bool_decide_eq_false_2 in Hexp by lia.
Qed.

(** C7.  With [KeepTime > 0], an entry whose age exceeds [KeepTime] is
    absent from the map after the next maintenance cycle (its key is
    deleted by the sweep, or the goroutine found the lifecycle context
    cancelled and cleared the map).  With [KeepTime = 0] the sweep marks no
    key for deletion, and a cycle after which the loop goes on leaves the
    set of keys as it was. *)
Theorem cycle_evicts_aged c w :
  (∀ key e now,
     cacheMap c !! key = Some e →
     0 < KeepTime c → KeepTime c < time_Since now (created e) →
     now ≤ v_now_created (visits w key) →
     cacheMap (cycle c w).1.1 !! key = None)
  ∧ (KeepTime c = 0 →
     s_toDelete (sweep c (visits w)) = []
     ∧ ((cycle c w).2 = true →
        dom (cacheMap (cycle c w).1.1) = dom (cacheMap c))).
Proof.
  split.
  - intros key e now He Hpos Hage Hnow.
    destruct ((cycle c w).2) eqn:Hrun.
    + destruct (cycle_running _ _ Hrun) as (Hnc & -> & _).
      rewrite cacheMap_with_cacheMap, sweep_map. rewrite decide_True; [done|].
      apply (sweep_toDelete_complete _ _ _ e); [done|done|].
      unfold expired. rewrite !bool_decide_eq_true_2; [done| |done].
      unfold time_Since in *.
      pose proof (Time_Sub_mono _ _ (created e) Hnow). lia.
    + rewrite cycle_stopped by done. apply lookup_empty.
  - intros Hzero.
    pose proof (sweep_toDelete_nil c (visits w) Hzero) as Hnil.
    split; [done|]. intros Hrun.
    destruct (cycle_running _ _ Hrun) as (Hnc & -> & _).
    rewrite cacheMap_with_cacheMap.
    apply set_eq. intros key. rewrite !elem_of_dom.
    rewrite sweep_map, Hnil. rewrite decide_False by apply not_elem_of_nil.
    destruct (cacheMap c !! key) as [e|] eqn:He.
    + rewrite (walk_map_visited _ _ _ e) by done. done.
    + by rewrite walk_map_None.
Qed.

Lemma cycle_fresh_untouched c w key e :
  cacheMap c !! key = Some e →
  stays_fresh (RefreshTime c) (KeepTime c) w key e →
  (key ∉ s_toDelete (sweep c (visits w)))
  ∧ (∀ ctx, Produce ctx key ∉ (cycle c w).1.2)
  ∧ s_map (sweep c (visits w)) !! key = Some e
  ∧ ((cycle c w).2 = true → cacheMap (cycle c w).1.1 !! key = Some e).
Proof.
  intros He [Hfresh Hkeep].
  assert (Hf : fresh (RefreshTime c) (visits w key) e = true).
  { unfold fresh. by apply bool_decide_eq_true_2. }
  assert (Hexp : expired (KeepTime c) (visits w key) e = false).
  { unfold expired. apply andb_false_iff.
    destruct (decide (0 < KeepTime c)).
    - right. apply bool_decide_eq_false_2. lia.
    - left. by apply bool_decide_eq_false_2. }
  pose proof (fresh_not_selected _ (KeepTime c) _ _ Hf) as Hsel.
  pose proof (not_expired_not_deleted _ _ _ _ He Hexp) as Hkept.
  assert (Hmap : s_map (sweep c (visits w)) !! key = Some e).
  { rewrite sweep_map, decide_False by done.
    apply walk_map_kept; [done|]. by rewrite Hsel. }
  split_and!; [done| |done|].
  - intros ctx Hin. apply cycle_trace, sweep_trace_selected in Hin.
    destruct Hin as (k & e' & He' & Hsel' & Hev).
    injection Hev as _ ->. congruence.
  - intros Hrun. by destruct (cycle_running _ _ Hrun) as (_ & -> & _).
Qed.

Lemma cycle_config c w :
  RefreshTime (cycle c w).1.1 = RefreshTime c
  ∧ KeepTime (cycle c w).1.1 = KeepTime c.
Proof.
  unfold cycle. destruct (cancelled c || cancel_in_sleep w); [done|].
  destruct (s_cancelled (sweep c (visits w)) || cancel_at_end w); done.
Qed.

Lemma cycles_fresh_untouched ws c key e :
  cacheMap c !! key = Some e →
  Forall (λ w, stays_fresh (RefreshTime c) (KeepTime c) w key e) ws →
  (∀ ctx, Produce ctx key ∉ (cycles ws c).1.2)
  ∧ ((cycles ws c).2 = true → cacheMap (cycles ws c).1.1 !! key = Some e).
Proof.
  revert c. induction ws as [|w ws IH]; intros c He Hall; simpl.
  - split; [|done]. intros ctx. apply not_elem_of_nil.
  - apply Forall_cons in Hall as [Hw Hall].
    destruct (cycle_fresh_untouched c w key e He Hw) as (_ & Htr & _ & Hmap).
    destruct (cycle_config c w) as [HRT HKT].
    destruct (cycle c w) as [[c1 tr1] running]. simpl in *.
    destruct running; [|by split].
    rewrite <- HRT, <- HKT in Hall.
    destruct (IH c1 (Hmap eq_refl) Hall) as [Htr' Hmap'].
    destruct (cycles ws c1) as [[c2 tr2] running]. simpl in *.
    split; [|done]. intros ctx Hin. apply elem_of_app in Hin as [Hin|Hin].
    + by eapply Htr.
    + by eapply Htr'.
Qed.

(** C8 (amended).  An entry that is younger than [RefreshTime] when the
    sweep visits it, and that is not past a positive [KeepTime], is left
    alone: its key is not marked for deletion, the producer is not called
    for it, the sweep leaves it as it is, and it is still in the map after a
    cycle that does not end the loop.  The same holds over any number of
    cycles of the maintenance goroutine in which the entry stays that
    fresh. *)
Theorem sweeps_leave_fresh c key e :
  cacheMap c !! key = Some e →
  (∀ w, stays_fresh (RefreshTime c) (KeepTime c) w key e →
     (key ∉ s_toDelete (sweep c (visits w)))
     ∧ (∀ ctx, Produce ctx key ∉ (cycle c w).1.2)
     ∧ s_map (sweep c (visits w)) !! key = Some e
     ∧ ((cycle c w).2 = true → cacheMap (cycle c w).1.1 !! key = Some e))
  ∧ (∀ cancel ws,
       Forall (λ w, stays_fresh (RefreshTime c) (KeepTime c) w key e) ws →
       (∀ ctx, Produce ctx key ∉ (maintenance cancel ws c).1.2)
       ∧ ((maintenance cancel ws c).2 = true →
          cacheMap (maintenance cancel ws c).1.1 !! key = Some e)).
Proof.
  intros He. split.
  - intros w Hw. by apply cycle_fresh_untouched.
  - intros cancel ws Hall. unfold maintenance.
    destruct (cancelled c || cancel).
    + split; [|done]. intros ctx. apply not_elem_of_nil.
    + by apply cycles_fresh_untouched.
Qed.

(** C6.  An entry that the sweep selects for a proactive refresh (it is not
    past [KeepTime], not younger than [RefreshTime], was read since it was
    made, and was read less than [RefreshTime / 2] ago): the producer is
    called for its key with a context derived from the lifecycle context
    with the timeout [RefreshTime / 2]; when the producer returns
    [ok = true] the entry's [data] and [created] are overwritten in the same
    slot, [lastUsed] and the gate staying as they were; when it returns
    [ok = false] the entry is left as it was. *)
Theorem cycle_refreshes_selected c w key e :
  cacheMap c !! key = Some e →
  selected (RefreshTime c) (KeepTime c) (visits w key) e = true →
  (∀ s, s_cancelled s = false → v_cancel (visits w key) = false →
        visit (RefreshTime c) (KeepTime c) (visits w) key e s
        = ({| s_map :=
                if (v_produced (visits w key)).2
                then <[key := with_data_created (v_produced (visits w key)).1
                                (v_now_refreshed (visits w key)) e]> (s_map s)
                else s_map s;
              s_toDelete := s_toDelete s;
              s_trace :=
                s_trace s
                ++ [Produce (WithTimeout lifecycle (RefreshTime c `div` 2)) key];
              s_cancelled := false |}, true))
  ∧ ((cycle c w).2 = true →
     Produce (WithTimeout lifecycle (RefreshTime c `div` 2)) key
       ∈ (cycle c w).1.2
     ∧ ((v_produced (visits w key)).2 = true →
        cacheMap (cycle c w).1.1 !! key
        = Some (with_data_created (v_produced (visits w key)).1
                  (v_now_refreshed (visits w key)) e))
     ∧ ((v_produced (visits w key)).2 = false →
        cacheMap (cycle c w).1.1 !! key = Some e)).
Proof.
  intros He Hsel.
  pose proof (selected_not_expired _ _ _ _ Hsel) as Hexp.
  rewrite <- shr_1_half. split.
  - intros s Hs Hc. rewrite visit_visited by done. unfold visited.
    rewrite Hsel, Hexp. simpl. unfold refreshed.
    by destruct (v_produced (visits w key)).2.
  - intros Hrun. destruct (cycle_running _ _ Hrun) as (Hnc & -> & ->).
    assert (Hmap : s_map (sweep c (visits w)) !! key
                   = Some (refreshed (visits w key) e)).
    { rewrite sweep_map, decide_False
        by by eapply not_expired_not_deleted.
      rewrite (walk_map_visited _ _ _ e) by done. by rewrite Hsel. }
    split_and!.
    + by apply (sweep_trace_complete _ _ _ e).
    + intros Hok. rewrite cacheMap_with_cacheMap, Hmap.
      unfold refreshed. by rewrite Hok.
    + intros Hok. rewrite cacheMap_with_cacheMap, Hmap.
      unfold refreshed. by rewrite Hok.
Qed.

End cycle_facts.

(** *** A cache with one entry, visited 3.5s after it was made *)

Definition second : Duration := 1000000000.

(** Made at 1000ns and read at 3s. *)
Definition e_read : element (V:=Z) :=
  {| data := 1; lastUsed := 3 * second; created := 1000;
     ready := closed_chan |}.

Definition cache_of (RefreshTime KeepTime : Duration) (e : element (V:=Z))
  : Cache (K:=string) (V:=Z) :=
  {| cacheMap := {["x" := e]}; RefreshTime := RefreshTime;
     KeepTime := KeepTime; cancelled := false |}.

Definition visit_at (now : Time) (res : Z * bool) : visit_env (V:=Z) :=
  {| v_cancel := false; v_now_created := now; v_now_used := now + 10;
     v_produced := res; v_now_refreshed := now + 20 |}.

Definition cycle_at (now : Time) (res : Z * bool) : cycle_env (K:=string) (V:=Z) :=
  {| cancel_in_sleep := false; visits := λ _, visit_at now res;
     cancel_at_end := false |}.

Lemma cache_of_lookup RT KT e : cacheMap (cache_of RT KT e) !! "x" = Some e.
Proof. apply lookup_singleton_eq. Qed.

Lemma cycle_refreshes_selected_witness :
  cacheMap (cycle (cache_of (3 * second) (3600 * second) e_read)
              (cycle_at (1000 + 3500000000) (7, true))).1.1 !! "x"
  = Some {| data := 7; lastUsed := 3 * second;
            created := 1000 + 3500000000 + 20; ready := closed_chan |}.
Proof.
  refine (proj1 (proj2 (proj2 (cycle_refreshes_selected
            (cache_of (3 * second) (3600 * second) e_read)
            (cycle_at (1000 + 3500000000) (7, true)) "x" e_read
            (cache_of_lookup _ _ _) _) _)) _).
  - vm_compute. reflexivity.
  - vm_compute. reflexivity.
  - reflexivity.
Defined.

Lemma cycle_evicts_aged_witness :
  cacheMap (cycle (cache_of (3 * second) (2 * second) e_read)
              (cycle_at (1000 + 3500000000) (7, true))).1.1 !! "x" = None.
Proof.
  refine (proj1 (cycle_evicts_aged (cache_of (3 * second) (2 * second) e_read)
                   (cycle_at (1000 + 3500000000) (7, true)))
            "x" e_read (1000 + 3 * second) (cache_of_lookup _ _ _) _ _ _).
  - vm_compute. reflexivity.
  - vm_compute. reflexivity.
  - vm_compute. discriminate.
Defined.

(** C8, counterexample.  [RefreshTime] is 3s and [KeepTime] is 2s.  The
    entry is 2.5s old when the sweep visits it: younger than [RefreshTime],
    and deleted all the same. *)
Lemma cycle_deletes_fresh :
  cacheMap (cache_of (3 * second) (2 * second) e_read) !! "x" = Some e_read
  ∧ time_Since (1000 + 2500000000) (created e_read) < 3 * second
  ∧ (cycle (cache_of (3 * second) (2 * second) e_read)
       (cycle_at (1000 + 2500000000) (7, true))).2 = true
  ∧ cacheMap (cycle (cache_of (3 * second) (2 * second) e_read)
                (cycle_at (1000 + 2500000000) (7, true))).1.1 !! "x" = None.
Proof.
  split_and!.
  - apply cache_of_lookup.
  - vm_compute. reflexivity.
  - vm_compute. reflexivity.
  - vm_compute. reflexivity.
Qed.

Lemma sweeps_leave_fresh_witness :
  cacheMap (cycle (cache_of (3 * second) (3600 * second) e_read)
              (cycle_at (1000 + 2500000000) (7, true))).1.1 !! "x"
  = Some e_read.
Proof.
  refine (proj2 (proj2 (proj2 (proj1 (sweeps_leave_fresh
            (cache_of (3 * second) (3600 * second) e_read) "x" e_read
            (cache_of_lookup _ _ _))
            (cycle_at (1000 + 2500000000) (7, true)) _))) _).
  - split.
    + vm_compute. reflexivity.
    + vm_compute. intros [_ Hlt]. discriminate Hlt.
  - vm_compute. reflexivity.
Defined.

End PointCacheSweep.

(** ** The bulk cache *)

Module BulkCacheFacts.
Import BulkCache.

Section bulk_defs.
Context `{Countable K} {V : Type}.
Implicit Types (c : CacheMap (K:=K) (V:=V)) (key : K).
Implicit Types (tr : list event) (m : gmap K (mapElement (V:=V))).

(** The closure [ready] has not run yet and [c.ready] is open, or it has
    run: [close(c.ready)] cannot panic. *)
Definition gate_ok c : Prop := ready_done c = false → ready c = open_chan.

(** The entry is older than [KeepTime] when the sweep visits it. *)
Definition aged (KeepTime : Duration) (now_of : K → Time) key
  (value : mapElement (V:=V)) : Prop :=
  KeepTime < time_Since (now_of key) (created value).

Global Instance aged_dec KeepTime now_of key value :
  Decision (aged KeepTime now_of key value).
Proof. unfold aged. apply _. Defined.

(** The keys a producer run writes. *)
Definition written (w : run_env (K:=K) (V:=V)) : list K := (r_writes w).*1.*1.

(** The gate was closed once, by the call of [ready] that follows [cause]. *)
Definition resolved_by (cause : event) tr : Prop :=
  ∃ pre post, tr = pre ++ cause :: ReadyCall :: CloseReady :: post
    ∧ (CloseReady ∉ pre) ∧ (CloseReady ∉ post)
    ∧ (cause = Refresh true → Refresh true ∉ pre).

Definition gate_open c tr : Prop :=
  ready_done c = false ∧ ready c = open_chan
  ∧ (CloseReady ∉ tr) ∧ (cancelled c = false → Refresh true ∉ tr).

Definition gate_closed c tr : Prop :=
  ready_done c = true ∧ ready c = closed_chan
  ∧ (resolved_by (Refresh true) tr ∨ resolved_by Leave tr).

(** The gate while the goroutine runs, and after it has left. *)
Definition gate_sound c tr : Prop := gate_open c tr ∨ gate_closed c tr.

Definition gate_state c tr (running : bool) : Prop :=
  (running = true ∧ cancelled c = false ∧ gate_open c tr) ∨ gate_closed c tr.

(** C9 as the specification words it: the gate is closed by the call of
    [ready] that follows the first producer run that returned
    [ok = true]. *)
Definition resolved_by_first_success tr : Prop :=
  resolved_by (Refresh true) tr.

(** The cache after the writes of a producer run and the test of the
    lifecycle context that follows. *)
Definition after_writes c (r : run_env (K:=K) (V:=V)) : CacheMap :=
  with_cancelled (cancelled c || r_cancel r)
    (with_cacheMap (foldl setter (cacheMap c) (r_writes r)) c).

(** The map after one turn of the loop. *)
Definition iteration_map c (w : iter_env (K:=K) (V:=V)) : gmap K (mapElement (V:=V)) :=
  if cancelled c || i_cancel_sleep w then cacheMap c
  else if bool_decide (time_Since (i_now w) (lastRefresh c) < RefreshTime c)
       then sweep c (i_sweep_now w)
       else foldl setter (sweep c (i_sweep_now w)) (r_writes (i_run w)).

End bulk_defs.

Section get_defs.
Context `{Countable K} {V : Type}.
Variable zero : V.
Implicit Types (c : CacheMap (K:=K) (V:=V)) (key : K).

(** The plain lookup done by [Get] once it is past the [select]. *)
Definition lookup_result c key : outcome (V * bool) :=
  match cacheMap c !! key with
  | Some value => Returns (data value, true)
  | None => Returns (zero, false)
  end.

(** C4 as the specification words it for a cache whose gate is resolved:
    [Get] is the plain lookup. *)
Definition by_lookup c (done : bool) (pick : select_case) key : Prop :=
  BulkCache.Get zero c done pick key = lookup_result c key.

End get_defs.

Section sweep_facts.
Context `{Countable K} {V : Type}.
Implicit Types (c : CacheMap (K:=K) (V:=V)) (key : K).
Implicit Types (m : gmap K (mapElement (V:=V))).
Implicit Types (items : list (K * mapElement (V:=V))).

Lemma ForEach_items_visit KeepTime now_of items (td : list K) key :
  key ∈ haxmap.ForEach_items (visit KeepTime now_of) items td
  ↔ key ∈ td ∨ ∃ value, (key, value) ∈ items ∧ aged KeepTime now_of key value.
Proof.
  revert td. induction items as [|[k value] items IH]; intros td; simpl.
  - split; [auto|]. intros [?|(value & Hin & _)]; [done|].
    by apply elem_of_nil in Hin.
  - unfold visit at 1. case_bool_decide as Hage; rewrite IH; split.
    + intros [Hin|(value' & Hin & Hagev)].
      * apply elem_of_app in Hin as [Hin|Hin]; [auto|].
        apply list_elem_of_singleton in Hin as ->.
        right. exists value. split; [|done]. apply elem_of_cons. auto.
      * right. exists value'. split; [|done]. apply elem_of_cons. auto.
    + intros [Hin|(value' & Hin & Hagev)].
      * left. apply elem_of_app. auto.
      * apply elem_of_cons in Hin as [Heq|Hin].
        -- injection Heq as -> ->. left. apply elem_of_app. right.
           by apply list_elem_of_singleton.
        -- right. eauto.
    + intros [Hin|(value' & Hin & Hagev)]; [auto|].
      right. exists value'. split; [|done]. apply elem_of_cons. auto.
    + intros [Hin|(value' & Hin & Hagev)]; [auto|].
      apply elem_of_cons in Hin as [Heq|Hin].
      * injection Heq as -> ->. done.
      * right. eauto.
Qed.

Lemma toDelete_aged c now_of key :
  key ∈ toDelete c now_of
  ↔ ∃ value, cacheMap c !! key = Some value
      ∧ aged (KeepTime c) now_of key value.
Proof.
  unfold toDelete, haxmap.ForEach. rewrite ForEach_items_visit. split.
  - intros [Hin|(value & Hin & Hage)]; [by apply elem_of_nil in Hin|].
    exists value. split; [|done]. by apply elem_of_map_to_list.
  - intros (value & Hin & Hage). right. exists value. split; [|done].
    by apply elem_of_map_to_list.
Qed.

Lemma sweep_lookup c now_of key :
  sweep c now_of !! key
  = match cacheMap c !! key with
    | Some value =>
        if bool_decide (aged (KeepTime c) now_of key value) then None
        else Some value
    | None => None
    end.
Proof.
  unfold sweep. destruct (cacheMap c !! key) as [value|] eqn:Hkey.
  - case_bool_decide as Hage.
    + apply Del_lookup_elem. apply toDelete_aged. eauto.
    + rewrite Del_lookup_ne; [done|].
      intros (value' & Hkey' & Hage')%toDelete_aged. congruence.
  - by apply Del_lookup_None.
Qed.

Lemma setter_lookup_ne m (w : K * V * Time) key :
  key ≠ w.1.1 → setter m w !! key = m !! key.
Proof.
  destruct w as [[k v] t]. simpl. intros Hne. unfold haxmap.Set_.
  by rewrite lookup_insert_ne.
Qed.

Lemma foldl_setter_other m (ws : list (K * V * Time)) key :
  key ∉ ws.*1.*1 → foldl setter m ws !! key = m !! key.
Proof.
  revert m. induction ws as [|w ws IH]; intros m Hnotin; simpl; [done|].
  simpl in Hnotin. apply not_elem_of_cons in Hnotin as [Hne Hnotin].
  rewrite IH by done. by apply setter_lookup_ne.
Qed.

Lemma foldl_setter_is_Some m (ws : list (K * V * Time)) key :
  is_Some (m !! key) → is_Some (foldl setter m ws !! key).
Proof.
  revert m. induction ws as [|[[k v] t] ws IH]; intros m Hm; simpl; [done|].
  apply IH. unfold haxmap.Set_. rewrite lookup_insert.
  case_decide; [eauto|done].
Qed.

End sweep_facts.

Section gate_facts.
Context `{Countable K} {V : Type}.
Implicit Types (c : CacheMap (K:=K) (V:=V)) (key : K).
Implicit Types (tr : list event) (w : iter_env (K:=K) (V:=V)).

Lemma ready_once_done c :
  ready_done c = true → ready_once c = Returns (c, [ReadyCall]).
Proof. intros Hd. unfold ready_once. by rewrite Hd. Qed.

Lemma ready_once_open c :
  ready_done c = false → ready c = open_chan →
  ready_once c = Returns (with_ready closed_chan c, [ReadyCall; CloseReady]).
Proof. intros Hd Hr. unfold ready_once. by rewrite Hd, Hr. Qed.

Lemma refresh_cases c (r : run_env (K:=K) (V:=V)) :
  gate_ok c →
  refresh c r =
    if r_ok r && negb (cancelled c || r_cancel r) then
      if ready_done c then
        Returns (with_lastRefresh (r_start r) (after_writes c r),
                 [Refresh true; ReadyCall])
      else
        Returns (with_ready closed_chan
                   (with_lastRefresh (r_start r) (after_writes c r)),
                 [Refresh true; ReadyCall; CloseReady])
    else Returns (after_writes c r, [Refresh (r_ok r)]).
Proof.
  intros Hok. unfold refresh, after_writes. simpl.
  destruct (r_ok r && negb (cancelled c || r_cancel r)) eqn:Hsucc; [|done].
  apply andb_true_iff in Hsucc as [-> _].
  destruct (ready_done c) eqn:Hd.
  - by rewrite ready_once_done.
  - rewrite ready_once_open; [done|done|]. by apply Hok.
Qed.

Lemma leave_cases c :
  gate_ok c →
  leave c =
    if ready_done c then
      Returns (with_cancelled true c, [Leave; ReadyCall], false)
    else
      Returns (with_ready closed_chan (with_cancelled true c),
               [Leave; ReadyCall; CloseReady], false).
Proof.
  intros Hok. unfold leave. destruct (ready_done c) eqn:Hd.
  - by rewrite ready_once_done.
  - rewrite ready_once_open; [done|done|]. by apply Hok.
Qed.

Lemma gate_open_ok c tr : gate_open c tr → gate_ok c.
Proof. intros (_ & Hr & _) _. done. Qed.

Lemma gate_closed_ok c tr : gate_closed c tr → gate_ok c.
Proof. intros (Hd & _) Hd'. congruence. Qed.

Lemma gate_sound_ok c tr : gate_sound c tr → gate_ok c.
Proof. intros [?|?]; eauto using gate_open_ok, gate_closed_ok. Qed.

Lemma gate_state_sound c tr running : gate_state c tr running → gate_sound c tr.
Proof. intros [(_ & _ & ?)|?]; [by left|by right]. Qed.

Lemma resolved_by_extend cause tr0 tr :
  resolved_by cause tr0 → CloseReady ∉ tr → resolved_by cause (tr0 ++ tr).
Proof.
  intros (pre & post & -> & Hpre & Hpost & Hfirst) Htr.
  exists pre, (post ++ tr). split_and!; [|done| |done].
  - by rewrite <- app_assoc.
  - rewrite elem_of_app. tauto.
Qed.

Lemma gate_closed_extend c c' tr0 tr :
  gate_closed c tr0 → ready_done c' = true → ready c' = closed_chan →
  CloseReady ∉ tr → gate_closed c' (tr0 ++ tr).
Proof.
  intros (_ & _ & Hres) Hd' Hr' Htr. split_and!; [done|done|].
  destruct Hres; eauto using resolved_by_extend.
Qed.

Lemma gate_sound_with_cacheMap c m tr :
  gate_sound c tr → gate_sound (with_cacheMap m c) tr.
Proof. done. Qed.

Lemma refresh_gate c (r : run_env (K:=K) (V:=V)) tr0 :
  gate_sound c tr0 →
  ∃ c' tr, refresh c r = Returns (c', tr) ∧ gate_sound c' (tr0 ++ tr).
Proof.
  intros Hs. rewrite refresh_cases by by eapply gate_sound_ok.
  destruct Hs as [(Hd & Hr & Hc & Hfirst)|Hclosed].
  - rewrite Hd.
    destruct (r_ok r && negb (cancelled c || r_cancel r)) eqn:Hsucc.
    + apply andb_true_iff in Hsucc as [_ Hnc].
      apply negb_true_iff, orb_false_elim in Hnc as [Hnc _].
      eexists _, _. split; [done|]. right. split_and!; [done|done|].
      left. exists tr0, []. split_and!; [done|done|apply not_elem_of_nil|auto].
    + eexists _, _. split; [done|]. left. split_and!; [done|done| |].
      * rewrite elem_of_app, list_elem_of_singleton.
        intros [?|?]; [done|discriminate].
      * simpl. intros Hnc. apply orb_false_elim in Hnc as [Hnc Hrc].
        rewrite Hnc, Hrc, andb_true_r in Hsucc. rewrite Hsucc.
        rewrite elem_of_app, list_elem_of_singleton.
        intros [?|?]; [by apply Hfirst|discriminate].
  - pose proof Hclosed as (Hd & Hr & _). rewrite Hd.
    destruct (r_ok r && negb (cancelled c || r_cancel r));
      eexists _, _; (split; [done|]); right;
      (eapply gate_closed_extend; [done|done|done|]);
      rewrite ?elem_of_cons, elem_of_nil; intros Hin; destruct_or!;
      done || discriminate.
Qed.

Lemma leave_gate c tr0 :
  gate_sound c tr0 →
  ∃ c' tr, leave c = Returns (c', tr, false) ∧ gate_closed c' (tr0 ++ tr).
Proof.
  intros Hs. rewrite leave_cases by by eapply gate_sound_ok.
  destruct Hs as [(Hd & Hr & Hc & Hfirst)|Hclosed].
  - rewrite Hd. eexists _, _. split; [done|]. split_and!; [done|done|].
    right. exists tr0, []. split_and!; [done|done|apply not_elem_of_nil|done].
  - pose proof Hclosed as (Hd & Hr & _). rewrite Hd.
    eexists _, _. split; [done|].
    eapply gate_closed_extend; [done|done|done|].
    rewrite ?elem_of_cons, elem_of_nil. intros Hin. destruct_or!;
      done || discriminate.
Qed.

Lemma loop_condition_gate cancel c tr0 tr :
  gate_sound c (tr0 ++ tr) →
  ∃ c' tr' running,
    loop_condition cancel c tr = Returns (c', tr', running)
    ∧ gate_state c' (tr0 ++ tr') running.
Proof.
  intros Hs. unfold loop_condition.
  destruct (cancelled c || cancel) eqn:Hc.
  - destruct (leave_gate _ _ Hs) as (c' & tr' & -> & Hclosed). simpl.
    eexists _, _, _. split; [done|]. right. by rewrite app_assoc.
  - apply orb_false_elim in Hc as [Hc _].
    eexists _, _, _. split; [done|].
    destruct Hs as [Hopen|Hclosed]; [left|right]; done.
Qed.

Lemma iteration_gate c w tr0 :
  gate_state c tr0 true →
  ∃ c' tr running,
    iteration c w = Returns (c', tr, running)
    ∧ gate_state c' (tr0 ++ tr) running.
Proof.
  intros Hs%gate_state_sound. unfold iteration.
  destruct (cancelled c || i_cancel_sleep w).
  { destruct (leave_gate _ _ Hs) as (c' & tr & -> & Hclosed).
    eexists _, _, _. split; [done|]. by right. }
  set (c1 := with_cacheMap (sweep c (i_sweep_now w)) c).
  assert (Hs1 : gate_sound c1 tr0) by done.
  case_bool_decide.
  - simpl. apply loop_condition_gate. by rewrite app_nil_r.
  - destruct (refresh_gate c1 (i_run w) tr0 Hs1) as (c2 & tr & -> & Hs2).
    simpl. by apply loop_condition_gate.
Qed.

Lemma iterations_gate ws c tr0 :
  gate_state c tr0 true →
  ∃ c' tr running,
    iterations ws c = Returns (c', tr, running)
    ∧ gate_state c' (tr0 ++ tr) running.
Proof.
  revert c tr0. induction ws as [|w ws IH]; intros c tr0 Hs; simpl.
  - eexists _, _, _. split; [done|]. by rewrite app_nil_r.
  - destruct (iteration_gate c w tr0 Hs) as (c1 & tr1 & running & -> & Hs1).
    simpl. destruct running.
    + destruct (IH c1 (tr0 ++ tr1) Hs1) as (c2 & tr2 & running & -> & Hs2).
      simpl. eexists _, _, _. split; [done|]. by rewrite app_assoc.
    + eexists _, _, _. split; [done|]. done.
Qed.

Lemma NewMap_gate RefreshTime KeepTime :
  gate_sound (NewMap (K:=K) (V:=V) RefreshTime KeepTime) [].
Proof.
  left. split_and!; [done|done|apply not_elem_of_nil|].
  intros _. apply not_elem_of_nil.
Qed.

Lemma maintenance_gate r0 cancel ws c :
  gate_sound c [] →
  ∃ c' tr running,
    maintenance r0 cancel ws c = Returns (c', tr, running)
    ∧ gate_state c' tr running.
Proof.
  intros Hs. unfold maintenance.
  destruct (refresh_gate c r0 [] Hs) as (c1 & tr1 & -> & Hs1). simpl.
  destruct (loop_condition_gate cancel c1 [] tr1 Hs1)
    as (c2 & tr2 & running & -> & Hs2).
  simpl in *. destruct running.
  - destruct (iterations_gate ws c2 tr2 Hs2) as (c3 & tr3 & running & -> & Hs3).
    simpl. eexists _, _, _. split; done.
  - eexists _, _, _. split; done.
Qed.

Lemma refresh_ok_cases c r :
  gate_ok c → ∃ c' tr, refresh c r = Returns (c', tr) ∧ gate_ok c'
    ∧ cacheMap c' = foldl setter (cacheMap c) (r_writes r)
    ∧ KeepTime c' = KeepTime c.
Proof.
  intros Hok. rewrite refresh_cases by done.
  destruct (r_ok r && negb (cancelled c || r_cancel r));
    [destruct (ready_done c) eqn:Hd|];
    eexists _, _; (split; [done|]); (split; [|done]); intros Hd'; simpl in *;
    auto; congruence.
Qed.

Lemma leave_ok_cases c :
  gate_ok c → ∃ c' tr, leave c = Returns (c', tr, false)
    ∧ cacheMap c' = cacheMap c.
Proof.
  intros Hok. rewrite leave_cases by done.
  destruct (ready_done c); eexists _, _; done.
Qed.

Lemma loop_condition_ok_cases cancel c tr :
  gate_ok c → ∃ c' tr' running,
    loop_condition cancel c tr = Returns (c', tr', running)
    ∧ cacheMap c' = cacheMap c.
Proof.
  intros Hok. unfold loop_condition. destruct (cancelled c || cancel).
  - destruct (leave_ok_cases c Hok) as (c' & tr' & -> & Hm). simpl.
    eexists _, _, _. done.
  - eexists _, _, _. done.
Qed.

Lemma iteration_ok_cases c w :
  gate_ok c → ∃ c' tr running,
    iteration c w = Returns (c', tr, running)
    ∧ cacheMap c' = iteration_map c w.
Proof.
  intros Hok. unfold iteration, iteration_map.
  destruct (cancelled c || i_cancel_sleep w).
  { destruct (leave_ok_cases c Hok) as (c' & tr' & -> & Hm).
    eexists _, _, _. done. }
  set (c1 := with_cacheMap (sweep c (i_sweep_now w)) c).
  assert (Hok1 : gate_ok c1) by done.
  change (lastRefresh c1) with (lastRefresh c).
  change (RefreshTime c1) with (RefreshTime c).
  case_bool_decide.
  - simpl.
    destruct (loop_condition_ok_cases (i_cancel_end w) c1 [] Hok1)
      as (c' & tr' & running & -> & Hm).
    eexists _, _, _. done.
  - destruct (refresh_ok_cases c1 (i_run w) Hok1)
      as (c2 & tr2 & -> & Hok2 & Hm2 & _). simpl.
    destruct (loop_condition_ok_cases (i_cancel_end w) c2 tr2 Hok2)
      as (c' & tr' & running & -> & Hm).
    eexists _, _, _. split; [done|]. by rewrite Hm, Hm2.
Qed.

End gate_facts.

Section bulk_properties.
Context `{Countable K} {V : Type}.
Variable zero : V.
Implicit Types (c : CacheMap (K:=K) (V:=V)) (key : K).
Implicit Types (tr : list event) (w : iter_env (K:=K) (V:=V)).

Lemma Get_unfold c done pick key :
  Get zero c done pick key
  = match select done (ready c) pick with
    | None => Blocks
    | Some case_ctx_Done => Returns (zero, false)
    | Some case_ready => lookup_result zero c key
    end.
Proof. done. Qed.

(** C4.  [CacheMap.Get] waits for the first of the caller's context being
    done and the cache-wide gate being resolved.  The context case can win
    only when the context is done, the gate case only when the gate is
    resolved; with neither, [Get] stays blocked.  When the context wins
    [Get] returns [(zero, false)]; when the gate wins it looks the key up
    and returns [(value, true)] if the key is present and [(zero, false)]
    if it is absent.  With the gate resolved and the context not done
    [Get] is the plain lookup.  With the gate resolved and the context done
    too, the [select] may take either case: on the context case [Get]
    returns [(zero, false)] whatever the map holds, on the gate case it is
    the plain lookup.  On a cache just made by [NewMap] the gate is
    unresolved, and the first producer run that returns [ok = true] with
    the lifecycle context not cancelled resolves it, with the keys it wrote
    in the map. *)
Theorem Get_waits_then_looks_up c done pick key :
  (select done (ready c) pick = Some case_ctx_Done → done = true)
  ∧ (select done (ready c) pick = Some case_ready → ready c = closed_chan)
  ∧ (done = false → ready c ≠ closed_chan →
     Get zero c done pick key = Blocks)
  ∧ (select done (ready c) pick = Some case_ctx_Done →
     Get zero c done pick key = Returns (zero, false))
  ∧ (done = true → ready c ≠ closed_chan →
     Get zero c done pick key = Returns (zero, false))
  ∧ (select done (ready c) pick = Some case_ready →
     (∀ value, cacheMap c !! key = Some value →
               Get zero c done pick key = Returns (data value, true))
     ∧ (cacheMap c !! key = None →
        Get zero c done pick key = Returns (zero, false)))
  ∧ (done = false → ready c = closed_chan →
     select done (ready c) pick = Some case_ready)
  ∧ (done = false → ready c = closed_chan → by_lookup zero c done pick key)
  ∧ (done = true → ready c = closed_chan →
     (pick = case_ctx_Done →
      Get zero c done pick key = Returns (zero, false))
     ∧ (pick = case_ready → by_lookup zero c done pick key))
  ∧ (∀ RefreshTime KeepTime,
       ready (NewMap (K:=K) (V:=V) RefreshTime KeepTime) = open_chan
       ∧ ∀ r, r_ok r = true → r_cancel r = false →
           ∃ c' tr,
             refresh (NewMap (K:=K) (V:=V) RefreshTime KeepTime) r
             = Returns (c', tr)
             ∧ ready c' = closed_chan
             ∧ cacheMap c' = foldl setter ∅ (r_writes r)).
Proof.
  unfold by_lookup. rewrite Get_unfold. unfold select, lookup_result.
  split_and!.
  - by destruct done, (ready c), pick.
  - by destruct done, (ready c), pick.
  - intros -> Hr. by destruct (ready c).
  - by intros ->.
  - intros -> Hr. by destruct (ready c).
  - intros ->. split.
    + by intros value ->.
    + by intros ->.
  - by intros -> ->.
  - by intros -> ->.
  - intros -> ->. simpl. split; by intros ->.
  - intros RefreshTime KeepTime. split; [done|]. intros r Hok Hnc.
    rewrite refresh_cases by done. simpl. rewrite Hok, Hnc. simpl.
    eexists _, _. done.
Qed.


(** C5.  The map of the bulk cache changes only through the setter handed
    to the producer and through the age sweep.  A producer run removes no
    key: every key present before it is present after it, and the entries
    of the keys it does not write are as they were.  After one turn of the
    maintenance loop an entry that was not older than [KeepTime] when the
    sweep visited it is still present, unchanged if the producer did not
    write its key; a key that has gone was older than [KeepTime]; and a key
    that was absent and was not written is still absent. *)
Theorem bulk_merge_is_additive c :
  gate_ok c →
  (∀ r, ∃ c' tr, refresh c r = Returns (c', tr)
     ∧ (∀ key, is_Some (cacheMap c !! key) → is_Some (cacheMap c' !! key))
     ∧ (∀ key, key ∉ written r → cacheMap c' !! key = cacheMap c !! key))
  ∧ (∀ w, ∃ c' tr running, iteration c w = Returns (c', tr, running)
     ∧ (∀ key value, cacheMap c !! key = Some value →
          ¬ aged (KeepTime c) (i_sweep_now w) key value →
          is_Some (cacheMap c' !! key)
          ∧ (key ∉ written (i_run w) → cacheMap c' !! key = Some value))
     ∧ (∀ key value, cacheMap c !! key = Some value →
          cacheMap c' !! key = None →
          aged (KeepTime c) (i_sweep_now w) key value)
     ∧ (∀ key, cacheMap c !! key = None → key ∉ written (i_run w) →
          cacheMap c' !! key = None)).
Proof.
  intros Hok. split.
  - intros r.
    destruct (refresh_ok_cases c r Hok) as (c' & tr & Hrun & _ & Hm & _).
    exists c', tr. split; [done|]. rewrite Hm. split.
    + intros key. apply foldl_setter_is_Some.
    + intros key. apply foldl_setter_other.
  - intros w.
    destruct (iteration_ok_cases c w Hok) as (c' & tr & running & Hrun & Hm).
    exists c', tr, running. split; [done|]. rewrite Hm.
    unfold iteration_map. split_and!.
    + intros key value Hkey Hage.
      assert (Hsw : sweep c (i_sweep_now w) !! key = Some value).
      { rewrite sweep_lookup, Hkey. by rewrite bool_decide_eq_false_2. }
      destruct (cancelled c || i_cancel_sleep w); [by rewrite Hkey|].
      case_bool_decide; [by rewrite Hsw|]. split.
      * apply foldl_setter_is_Some. by rewrite Hsw.
      * intros Hw. by rewrite foldl_setter_other.
    + intros key value Hkey Hgone.
      destruct (decide (aged (KeepTime c) (i_sweep_now w) key value))
        as [|Hage]; [done|].
      assert (Hsw : sweep c (i_sweep_now w) !! key = Some value).
      { rewrite sweep_lookup, Hkey. by rewrite bool_decide_eq_false_2. }
      destruct (cancelled c || i_cancel_sleep w); [congruence|].
      case_bool_decide; [congruence|].
      pose proof (foldl_setter_is_Some (sweep c (i_sweep_now w))
                    (r_writes (i_run w)) key) as Hsome.
      rewrite Hsw, Hgone in Hsome. by destruct Hsome.
    + intros key Hkey Hw.
      assert (Hsw : sweep c (i_sweep_now w) !! key = None).
      { by rewrite sweep_lookup, Hkey. }
      destruct (cancelled c || i_cancel_sleep w); [done|].
      case_bool_decide; [done|]. by rewrite foldl_setter_other.
Qed.

(** C9 (amended).  The goroutine started by [NewMap] never panics, and the
    cache-wide gate is closed at most once.  While the goroutine runs and
    no producer run has returned [ok = true], the gate is open.  Otherwise
    the gate is closed, by exactly one call of [ready]: the one that follows
    the first producer run that returned [ok = true] with the lifecycle
    context not cancelled, or the deferred one that runs when the goroutine
    leaves.  Once the goroutine has left, the gate is closed.  Every later
    call of [ready] closes nothing and leaves the cache as it is. *)
Theorem gate_resolved_once RefreshTime KeepTime r0 cancel ws :
  (∃ c' tr running,
     maintenance r0 cancel ws (NewMap (K:=K) (V:=V) RefreshTime KeepTime)
     = Returns (c', tr, running)
     ∧ ((running = true ∧ ready c' = open_chan
         ∧ (CloseReady ∉ tr) ∧ (Refresh true ∉ tr))
        ∨ (ready c' = closed_chan
           ∧ (resolved_by (Refresh true) tr ∨ resolved_by Leave tr)))
     ∧ (running = false → ready c' = closed_chan))
  ∧ (∀ c, ready_done c = true → ready_once c = Returns (c, [ReadyCall])).
Proof.
  split; [|apply ready_once_done].
  destruct (maintenance_gate r0 cancel ws _ (NewMap_gate RefreshTime KeepTime))
    as (c' & tr & running & Hrun & Hs).
  exists c', tr, running. split; [done|].
  destruct Hs as [(-> & Hnc & _ & Hr & Hc & Hfirst)|(_ & Hr & Hres)].
  - split; [|done]. left. auto.
  - split; [|done]. right. auto.
Qed.

(** C10.  The sweep of the bulk cache deletes every entry that is older
    than [KeepTime] when it is visited, whatever the sign of [KeepTime].
    With [KeepTime = 0] every entry made before the clock reading of its
    visit is marked for deletion, and the sweep leaves the map empty.  The
    sweep of the per-key cache with [KeepTime = 0] marks nothing. *)
Theorem bulk_sweep_has_no_KeepTime_guard c now_of :
  (∀ key value, cacheMap c !! key = Some value →
     aged (KeepTime c) now_of key value → sweep c now_of !! key = None)
  ∧ (KeepTime c = 0 →
     (∀ key value, cacheMap c !! key = Some value →
        created value < now_of key) →
     (∀ key, is_Some (cacheMap c !! key) → key ∈ toDelete c now_of)
     ∧ sweep c now_of = ∅)
  ∧ (∀ (p : PointCache.Cache (K:=K) (V:=V)) env,
       PointCache.KeepTime p = 0 →
       PointCache.s_toDelete (PointCache.sweep p env) = []).
Proof.
  split_and!; [| |apply PointCacheSweep.sweep_toDelete_nil].
  - intros key value Hkey Hage. rewrite sweep_lookup, Hkey.
    by rewrite bool_decide_eq_true_2.
  - intros Hzero Hpast.
    assert (Haged : ∀ key value, cacheMap c !! key = Some value →
                                 aged (KeepTime c) now_of key value).
    { intros key value Hkey. unfold aged, time_Since. rewrite Hzero.
      pose proof (Hpast _ _ Hkey). unfold Time_Sub.
      repeat case_bool_decide; unfold maxDuration, minDuration in *; lia. }
    split.
    + intros key [value Hkey]. apply toDelete_aged. eauto.
    + apply map_eq. intros key. rewrite lookup_empty, sweep_lookup.
      destruct (cacheMap c !! key) as [value|] eqn:Hkey; [|done].
      rewrite bool_decide_eq_true_2; eauto.
Qed.

End bulk_properties.

(** *** The bulk cache of the package's test: string keys, [int] values *)

Definition second : Duration := 1000000000.

(** The first producer run: it starts at 1000ns and has written three keys
    one second later. *)
Definition r_first : run_env (K:=string) (V:=Z) :=
  {| r_start := 1000;
     r_writes := [("0", 0, second + 1); ("1", 1, second + 2);
                  ("2", 2, second + 3)];
     r_ok := true; r_cancel := false |}.

(** A later run that writes the key "1" only. *)
Definition r_partial : run_env (K:=string) (V:=Z) :=
  {| r_start := 5 * second; r_writes := [("1", 11, 5 * second + 1)];
     r_ok := true; r_cancel := false |}.

(** A run that fails. *)
Definition r_fail : run_env (K:=string) (V:=Z) :=
  {| r_start := 1000; r_writes := []; r_ok := false; r_cancel := false |}.

Definition c_new (KeepTime : Duration) : CacheMap (K:=string) (V:=Z) :=
  NewMap (4 * second) KeepTime.

(** The cache after the first run has succeeded. *)
Definition c_pop (KeepTime : Duration) : CacheMap (K:=string) (V:=Z) :=
  with_ready closed_chan
    (with_lastRefresh 1000 (after_writes (c_new KeepTime) r_first)).

(** The cache when the goroutine has left after a failed first run. *)
Definition c_left : CacheMap (K:=string) (V:=Z) :=
  with_ready closed_chan (with_cancelled true (c_new (3600 * second))).

Lemma refresh_first KeepTime :
  refresh (c_new KeepTime) r_first
  = Returns (c_pop KeepTime, [Refresh true; ReadyCall; CloseReady]).
Proof. reflexivity. Qed.

Lemma c_pop_map KeepTime :
  cacheMap (c_pop KeepTime)
  = <["2" := {| data := 2; created := second + 3 |}]>
      (<["1" := {| data := 1; created := second + 2 |}]>
         (<["0" := {| data := 0; created := second + 1 |}]> ∅)).
Proof. reflexivity. Qed.

Lemma c_pop_ok KeepTime : gate_ok (c_pop KeepTime).
Proof. intros Hd. discriminate Hd. Defined.

(** C4, counterexample.  The gate is resolved and the key is present, yet
    a caller whose context is done gets [(zero, false)] when the [select]
    takes the context case: [Get] is not the plain lookup there. *)
Lemma Get_ctx_done_after_gate_resolved :
  ready (c_pop (3600 * second)) = closed_chan
  ∧ cacheMap (c_pop (3600 * second)) !! "1"
    = Some {| data := 1; created := second + 2 |}
  ∧ Get 0 (c_pop (3600 * second)) true case_ctx_Done "1" = Returns (0, false)
  ∧ ¬ by_lookup 0 (c_pop (3600 * second)) true case_ctx_Done "1".
Proof.
  split_and!; try (vm_compute; reflexivity).
  unfold by_lookup. intros Hget.
  assert (Hrun : Get 0 (c_pop (3600 * second)) true case_ctx_Done "1"
                 = Returns (0, false)) by (vm_compute; reflexivity).
  assert (Hlook : lookup_result 0 (c_pop (3600 * second)) "1"
                  = Returns (1, true)) by (vm_compute; reflexivity).
  rewrite Hrun, Hlook in Hget. discriminate Hget.
Qed.

Lemma Get_waits_then_looks_up_witness :
  Get 0 (c_new (3600 * second)) false case_ready "1" = Blocks
  ∧ Get 0 (c_new (3600 * second)) true case_ready "1" = Returns (0, false)
  ∧ Get 0 (c_pop (3600 * second)) false case_ready "1" = Returns (1, true)
  ∧ Get 0 (c_pop (3600 * second)) true case_ctx_Done "1" = Returns (0, false)
  ∧ by_lookup 0 (c_pop (3600 * second)) true case_ready "1".
Proof.
  split_and!; cycle 3.
  - destruct (Get_waits_then_looks_up 0 (c_pop (3600 * second)) true
                case_ctx_Done "1")
      as (_ & _ & _ & _ & _ & _ & _ & _ & Hboth & _).
    apply Hboth; reflexivity.
  - destruct (Get_waits_then_looks_up 0 (c_pop (3600 * second)) true
                case_ready "1")
      as (_ & _ & _ & _ & _ & _ & _ & _ & Hboth & _).
    apply Hboth; reflexivity.
  - refine (proj1 (proj2 (proj2 (Get_waits_then_looks_up 0
              (c_new (3600 * second)) false case_ready "1"))) _ _);
      [reflexivity | discriminate].
  - refine (proj1 (proj2 (proj2 (proj2 (proj2 (Get_waits_then_looks_up 0
              (c_new (3600 * second)) true case_ready "1"))))) _ _);
      [reflexivity | discriminate].
  - refine (proj1 (proj1 (proj2 (proj2 (proj2 (proj2 (proj2
              (Get_waits_then_looks_up 0 (c_pop (3600 * second)) false
                 case_ready "1")))))) _)
              {| data := 1; created := second + 2 |} _);
      [reflexivity | vm_compute; reflexivity].
Defined.

Lemma bulk_merge_is_additive_witness :
  gate_ok (c_pop (3600 * second))
  ∧ ∃ c' tr,
      refresh (c_pop (3600 * second)) r_partial = Returns (c', tr)
      ∧ cacheMap c' !! "0" = cacheMap (c_pop (3600 * second)) !! "0".
Proof.
  split; [apply c_pop_ok|].
  destruct (proj1 (bulk_merge_is_additive (c_pop (3600 * second))
                     (c_pop_ok _)) r_partial)
    as (c' & tr & Hrun & _ & Hother).
  exists c', tr. split; [exact Hrun|]. apply Hother.
  unfold written. simpl. intros Hin.
  apply list_elem_of_singleton in Hin. discriminate Hin.
Defined.

(** C9, counterexample.  The first producer run fails and the lifecycle
    context is cancelled: the goroutine leaves, and its deferred call of
    [ready] closes the gate although no producer run has returned
    [ok = true]. *)
Lemma gate_resolved_without_success :
  maintenance r_fail true [] (c_new (3600 * second))
  = Returns (c_left, [Refresh false; Leave; ReadyCall; CloseReady], false)
  ∧ ready c_left = closed_chan
  ∧ ¬ resolved_by_first_success [Refresh false; Leave; ReadyCall; CloseReady].
Proof.
  split_and!; [reflexivity|reflexivity|].
  intros (pre & post & Heq & _).
  assert (Hin : Refresh true
                ∈ [Refresh false; Leave; ReadyCall; CloseReady]).
  { rewrite Heq. apply elem_of_app. right. apply elem_of_cons. auto. }
  rewrite !elem_of_cons, elem_of_nil in Hin.
  destruct_or!; done || discriminate.
Qed.

Lemma gate_resolved_once_witness :
  ∃ c' tr running,
    maintenance r_first false [] (c_new (3600 * second))
    = Returns (c', tr, running)
    ∧ ((running = true ∧ ready c' = open_chan
        ∧ (CloseReady ∉ tr) ∧ (Refresh true ∉ tr))
       ∨ (ready c' = closed_chan
          ∧ (resolved_by (Refresh true) tr ∨ resolved_by Leave tr)))
    ∧ (running = false → ready c' = closed_chan).
Proof.
  exact (proj1 (gate_resolved_once (4 * second) (3600 * second)
                  r_first false [])).
Defined.

Lemma bulk_sweep_has_no_KeepTime_guard_witness :
  sweep (c_pop 0) (λ _, 2 * second) = ∅.
Proof.
  refine (proj2 (proj1 (proj2 (bulk_sweep_has_no_KeepTime_guard (c_pop 0)
                                   (λ _, 2 * second))) _ _)).
  - reflexivity.
  - intros key value Hkey. rewrite c_pop_map in Hkey.
    repeat (apply lookup_insert_Some in Hkey as [[_ <-]|[_ Hkey]];
            [vm_compute; reflexivity|]).
    rewrite lookup_empty in Hkey. discriminate Hkey.
Defined.

End BulkCacheFacts.

(** ** The maintenance goroutine of the point cache, entry by entry *)

Module PointCacheUpkeep.
Import PointCache PointCacheSweep.

Section upkeep.
Context `{Countable K} {V : Type}.
Implicit Types (c : Cache (K:=K) (V:=V)) (e : element (V:=V)) (key : K).
Implicit Types (w : cycle_env (K:=K) (V:=V)).

(** The entry written by a proactive refresh that succeeded. *)
Definition refreshed_ok (v : visit_env (V:=V)) e : element :=
  with_data_created (v_produced v).1 (v_now_refreshed v) e.

(** The entry has not been read since it was made or last refreshed; so it
    is for a slot whose first computation failed or is under way. *)
Definition unread e : Prop := lastUsed e < created e.

End upkeep.

Section upkeep_facts.
Context `{Countable K} {V : Type}.
Implicit Types (c : Cache (K:=K) (V:=V)) (e : element (V:=V)) (key : K).
Implicit Types (w : cycle_env (K:=K) (V:=V)).

Lemma walk_map_cases c env key e :
  cacheMap c !! key = Some e →
  s_map (walk c env) !! key = Some e
  ∨ (selected (RefreshTime c) (KeepTime c) (env key) e = true
     ∧ (v_produced (env key)).2 = true
     ∧ s_map (walk c env) !! key = Some (refreshed_ok (env key) e)).
Proof.
  intros He.
  destruct (walk_shape c env) as (l1 & l2 & Hsplit & _ & Hmap & _).
  rewrite Hmap.
  destruct (decide (key ∈ l1.*1)) as [Hin|Hnotin].
  - apply list_elem_of_fmap in Hin as ([k e'] & Hk & Hin).
    simpl in Hk. subst k.
    pose proof (prefix_lookup _ _ _ _ _ Hsplit Hin) as He'.
    rewrite He in He'. injection He' as <-.
    rewrite (foldl_visited_map_visited _ _ _ _ _ _ e)
      by eauto using prefix_NoDup.
    destruct (selected _ _ _ _) eqn:Hsel; simpl; [|by left].
    destruct (v_produced (env key)).2 eqn:Hok; [|by left].
    right. split_and!; [done|done|]. unfold refreshed, refreshed_ok.
    by rewrite Hok.
  - left. by rewrite foldl_visited_map_other.
Qed.

Lemma cycle_lookup_cases c w key e' :
  cacheMap (cycle c w).1.1 !! key = Some e' →
  ∃ e, cacheMap c !! key = Some e
    ∧ (e' = e
       ∨ (selected (RefreshTime c) (KeepTime c) (visits w key) e = true
          ∧ (v_produced (visits w key)).2 = true
          ∧ e' = refreshed_ok (visits w key) e)).
Proof.
  destruct ((cycle c w).2) eqn:Hrun.
  - destruct (cycle_running _ _ Hrun) as (_ & -> & _).
    rewrite cacheMap_with_cacheMap, sweep_map. case_decide; [done|].
    destruct (cacheMap c !! key) as [e|] eqn:He.
    + intros He'. exists e. split; [done|].
      destruct (walk_map_cases c (visits w) key e He)
        as [Hw|(Hsel & Hok & Hw)]; rewrite Hw in He'; injection He' as <-;
        auto.
    + by rewrite walk_map_None.
  - rewrite cycle_stopped by done. by rewrite lookup_empty.
Qed.

Lemma cycle_absent c w key :
  cacheMap c !! key = None →
  (∀ ctx, Produce ctx key ∉ (cycle c w).1.2)
  ∧ cacheMap (cycle c w).1.1 !! key = None.
Proof.
  intros Hnone. split.
  - intros ctx Hin. apply cycle_trace, sweep_trace_selected in Hin.
    destruct Hin as (k & e & He & _ & Hev). injection Hev as _ ->.
    congruence.
  - destruct (cacheMap (cycle c w).1.1 !! key) as [e'|] eqn:He'; [|done].
    apply cycle_lookup_cases in He' as (e & He & _). congruence.
Qed.

Lemma cycle_unselected c w key e :
  cacheMap c !! key = Some e →
  selected (RefreshTime c) (KeepTime c) (visits w key) e = false →
  (∀ ctx, Produce ctx key ∉ (cycle c w).1.2)
  ∧ (cacheMap (cycle c w).1.1 !! key = Some e
     ∨ cacheMap (cycle c w).1.1 !! key = None).
Proof.
  intros He Hsel. split.
  - intros ctx Hin. apply cycle_trace, sweep_trace_selected in Hin.
    destruct Hin as (k & e' & He' & Hsel' & Hev). injection Hev as _ ->.
    congruence.
  - destruct (cacheMap (cycle c w).1.1 !! key) as [e'|] eqn:He'; [|by right].
    apply cycle_lookup_cases in He' as (e0 & He0 & Hcase).
    rewrite He in He0. injection He0 as <-.
    destruct Hcase as [->|(Hsel' & _)]; [by left|congruence].
Qed.

Lemma unread_not_selected RT KT (v : visit_env (V:=V)) e :
  unread e → selected RT KT v e = false.
Proof.
  unfold unread, selected, Time_After. intros Hlt.
  rewrite (bool_decide_eq_true_2 _ Hlt). simpl.
  by rewrite andb_false_r.
Qed.

Lemma cycles_unread ws c key e :
  cacheMap c !! key = Some e ∨ cacheMap c !! key = None →
  unread e →
  (∀ ctx, Produce ctx key ∉ (cycles ws c).1.2)
  ∧ (cacheMap (cycles ws c).1.1 !! key = Some e
     ∨ cacheMap (cycles ws c).1.1 !! key = None).
Proof.
  intros Hc Hun. revert c Hc.
  induction ws as [|w ws IH]; intros c Hc; simpl.
  - split; [|done]. intros ctx. apply not_elem_of_nil.
  - assert (Hstep : (∀ ctx, Produce ctx key ∉ (cycle c w).1.2)
                    ∧ (cacheMap (cycle c w).1.1 !! key = Some e
                       ∨ cacheMap (cycle c w).1.1 !! key = None)).
    { destruct Hc as [He|Hnone].
      - apply cycle_unselected; [done|]. by apply unread_not_selected.
      - destruct (cycle_absent c w key Hnone). auto. }
    destruct Hstep as [Htr Hc1].
    destruct (cycle c w) as [[c1 tr1] running]. simpl in *.
    destruct running; [|by split].
    destruct (IH c1 Hc1) as [Htr' Hc2].
    destruct (cycles ws c1) as [[c2 tr2] running]. simpl in *.
    split; [|done]. intros ctx Hin. apply elem_of_app in Hin as [Hin|Hin].
    + by eapply Htr.
    + by eapply Htr'.
Qed.

(** X7.  A maintenance cycle never adds a key and never touches the
    [lastUsed] stamp or the gate of an entry: every entry in the map after
    the cycle was there before it, either unchanged or with only [data] and
    [created] overwritten by a proactive refresh.  So a slot whose first
    computation failed stays failed through maintenance. *)
Theorem cycle_keeps_lastUsed_and_gate c w key e' :
  cacheMap (cycle c w).1.1 !! key = Some e' →
  ∃ e, cacheMap c !! key = Some e
    ∧ lastUsed e' = lastUsed e ∧ ready e' = ready e
    ∧ (e' = e
       ∨ (data e' = (v_produced (visits w key)).1
          ∧ created e' = v_now_refreshed (visits w key))).
Proof.
  intros (e & He & Hcase)%cycle_lookup_cases. exists e. split; [done|].
  destruct Hcase as [->|(_ & _ & ->)]; simpl; auto.
Qed.

(** X8.  The maintenance goroutine never calls the producer for an entry
    that has not been read since it was made or last refreshed, that is,
    whose [lastUsed] is before its [created] (so it is for a slot whose
    first computation failed, which keeps the zero [lastUsed]).
    Over any number of cycles such an entry is left exactly as it is until
    it is deleted. *)
Theorem unread_is_never_refreshed c key e cancel ws :
  cacheMap c !! key = Some e → unread e →
  (∀ ctx, Produce ctx key ∉ (maintenance cancel ws c).1.2)
  ∧ (cacheMap (maintenance cancel ws c).1.1 !! key = Some e
     ∨ cacheMap (maintenance cancel ws c).1.1 !! key = None).
Proof.
  intros He Hun. unfold maintenance. destruct (cancelled c || cancel).
  - split; [|by right]. intros ctx. apply not_elem_of_nil.
  - apply cycles_unread; auto.
Qed.

Lemma cycle_refreshed_lookup c w key e :
  cacheMap c !! key = Some e →
  selected (RefreshTime c) (KeepTime c) (visits w key) e = true →
  (v_produced (visits w key)).2 = true →
  (cycle c w).2 = true →
  cacheMap (cycle c w).1.1 !! key = Some (refreshed_ok (visits w key) e).
Proof.
  intros He Hsel Hok Hrun.
  destruct (cycle_running _ _ Hrun) as (Hnc & -> & _).
  rewrite cacheMap_with_cacheMap, sweep_map.
  rewrite decide_False
    by (eapply not_expired_not_deleted; eauto using selected_not_expired).
  rewrite (walk_map_visited _ _ _ e) by done.
  rewrite Hsel. unfold refreshed, refreshed_ok. by rewrite Hok.
Qed.

Lemma cycle_expired_absent c w key e :
  cacheMap c !! key = Some e →
  expired (KeepTime c) (visits w key) e = true →
  cacheMap (cycle c w).1.1 !! key = None.
Proof.
  intros He Hexp. destruct ((cycle c w).2) eqn:Hrun.
  - destruct (cycle_running _ _ Hrun) as (Hnc & -> & _).
    rewrite cacheMap_with_cacheMap, sweep_map. rewrite decide_True; [done|].
    by apply (sweep_toDelete_complete _ _ _ e).
  - rewrite cycle_stopped by done. apply lookup_empty.
Qed.

(** X9.  One proactive refresh per read: when a cycle has refreshed an
    entry (the producer returned [ok = true]) at a clock reading later than
    the entry's [lastUsed], the cycles that follow do not call the producer
    for that key again, and leave the refreshed entry as it is until it is
    deleted. *)
Theorem refreshed_once_per_read c w key e ws :
  cacheMap c !! key = Some e →
  selected (RefreshTime c) (KeepTime c) (visits w key) e = true →
  (v_produced (visits w key)).2 = true →
  lastUsed e < v_now_refreshed (visits w key) →
  (cycle c w).2 = true →
  (∀ ctx, Produce ctx key ∉ (cycles ws (cycle c w).1.1).1.2)
  ∧ (cacheMap (cycles ws (cycle c w).1.1).1.1 !! key
       = Some (refreshed_ok (visits w key) e)
     ∨ cacheMap (cycles ws (cycle c w).1.1).1.1 !! key = None).
Proof.
  intros He Hsel Hok Hlater Hrun.
  apply cycles_unread; [|done].
  left. by apply cycle_refreshed_lookup.
Qed.

(** X10.  A [Get] after a proactive refresh returns the refreshed data:
    when a cycle has refreshed the entry of a key, a caller of [Get] that
    gets past the gate receives the data the producer returned to the
    sweep, with [found = true], and no producer call is made for it. *)
Theorem Get_after_refresh (zero : V) c w key e ctx g :
  cacheMap c !! key = Some e →
  selected (RefreshTime c) (KeepTime c) (visits w key) e = true →
  (v_produced (visits w key)).2 = true →
  (cycle c w).2 = true →
  0 < created e →
  ready e = nil_chan
  ∨ (ready e = closed_chan ∧ (ctx_done g = false ∨ pick g = case_ready)) →
  ∃ c',
    Get zero (cycle c w).1.1 ctx key g
    = Returns ((v_produced (visits w key)).1, true, c', []).
Proof.
  intros He Hsel Hok Hrun Hmade Hgate.
  pose proof (cycle_refreshed_lookup _ _ _ _ He Hsel Hok Hrun) as He'.
  assert (Hlu : lastUsed e ≠ 0).
  { unfold selected, Time_After in Hsel.
    apply andb_true_iff in Hsel as [Hsel _].
    apply andb_true_iff in Hsel as [_ Hsel].
    apply negb_true_iff, bool_decide_eq_false_1 in Hsel. lia. }
  unfold Get, haxmap.GetOrCompute. rewrite He'. simpl.
  assert (Hw : await (refreshed_ok (visits w key) e) (ctx_done g) (pick g)
               = Some case_ready).
  { unfold await, select. simpl.
    destruct Hgate as [-> | [-> [-> | ->]]]; simpl; try done.
    by destruct (ctx_done g). }
  rewrite Hw. unfold Time_IsZero. simpl.
  rewrite bool_decide_eq_false_2 by done. eauto.
Qed.

(** X11.  A [Get] after an eviction starts over: when a cycle has visited
    an entry past a positive [KeepTime], the next [Get] of its key finds no
    slot, calls the producer with the caller's context and returns what the
    producer returns. *)
Theorem Get_after_eviction (zero : V) c w key e ctx g :
  cacheMap c !! key = Some e →
  0 < KeepTime c →
  KeepTime c < time_Since (v_now_created (visits w key)) (created e) →
  ∃ c',
    Get zero (cycle c w).1.1 ctx key g
    = Returns (if (produced g).2 then (produced g).1 else zero,
               (produced g).2, c', [Produce ctx key; CloseReady key]).
Proof.
  intros He Hpos Hage.
  assert (Hnone : cacheMap (cycle c w).1.1 !! key = None).
  { apply (cycle_expired_absent _ _ _ e); [done|].
    unfold expired. by rewrite !bool_decide_eq_true_2. }
  unfold Get, haxmap.GetOrCompute. rewrite Hnone.
  destruct (produced g) as [d []]; simpl; eauto.
Qed.

Lemma foldl_visited_count RT KT env
    (items : list (K * element (V:=V))) s key :
  NoDup items.*1 →
  (key ∉ items.*1 →
   produced_count key (s_trace (foldl (visited RT KT env) s items))
   = produced_count key (s_trace s))
  ∧ (produced_count key (s_trace (foldl (visited RT KT env) s items))
     ≤ produced_count key (s_trace s) + 1)%nat.
Proof.
  revert s. induction items as [|[k e] items IH]; intros s Hnd.
  - simpl. split; [done|lia].
  - rewrite fmap_cons in *. cbn [foldl fst].
    apply NoDup_cons in Hnd as [Hk Hnd].
    destruct (IH (visited RT KT env s (k, e)) Hnd) as [IHeq IHle].
    assert (Hstep : produced_count key
                      (s_trace (visited RT KT env s (k, e)))
                    = (produced_count key (s_trace s)
                       + if selected RT KT (env k) e
                         then if bool_decide (k = key) then 1 else 0
                         else 0)%nat).
    { simpl. destruct (selected RT KT (env k) e); [|lia].
      rewrite PointCacheRace.produced_count_app. f_equal.
      unfold produced_count. simpl. case_bool_decide.
      - by rewrite filter_cons_True by (simpl; by rewrite bool_decide_eq_true_2).
      - by rewrite filter_cons_False
          by (simpl; rewrite bool_decide_eq_false_2; done). }
    split.
    + intros Hnotin. apply not_elem_of_cons in Hnotin as [Hne Hnotin].
      rewrite IHeq by done. rewrite Hstep.
      rewrite bool_decide_eq_false_2 by done.
      destruct (selected RT KT (env k) e); lia.
    + destruct (decide (k = key)) as [->|Hne].
      * rewrite IHeq by done. rewrite Hstep.
        destruct (selected RT KT (env key) e); [|lia].
        case_bool_decide; lia.
      * rewrite Hstep in IHle. rewrite bool_decide_eq_false_2 in IHle by done.
        destruct (selected RT KT (env k) e); lia.
Qed.

(** X12.  What a maintenance cycle calls: every call it makes is a call of
    the producer, for a key that is in the map and is selected by the sweep,
    with the lifecycle context bounded by [RefreshTime >> 1]; it closes no
    gate; and it calls the producer at most once for a key. *)
Theorem cycle_calls c w :
  (∀ ev, ev ∈ (cycle c w).1.2 →
     ∃ key e, cacheMap c !! key = Some e
       ∧ selected (RefreshTime c) (KeepTime c) (visits w key) e = true
       ∧ ev = Produce (WithTimeout lifecycle (shr (RefreshTime c) 1)) key)
  ∧ (∀ key, (produced_count key (cycle c w).1.2 ≤ 1)%nat).
Proof.
  split.
  - intros ev Hin. by apply cycle_trace, sweep_trace_selected in Hin.
  - intros key.
    assert (Hsweep : (produced_count key (s_trace (sweep c (visits w)))
                      ≤ 1)%nat).
    { unfold sweep. fold (walk c (visits w)). simpl.
      destruct (walk_shape c (visits w))
        as (l1 & l2 & Hsplit & _ & _ & _ & ->).
      destruct (foldl_visited_count (RefreshTime c) (KeepTime c) (visits w)
                  l1 (sweep_init c) key (prefix_NoDup _ _ _ Hsplit))
        as [_ Hle].
      simpl in Hle. exact Hle. }
    unfold cycle. destruct (cancelled c || cancel_in_sleep w).
    { simpl. unfold produced_count. simpl. lia. }
    destruct (s_cancelled (sweep c (visits w)) || cancel_at_end w);
      exact Hsweep.
Qed.

(** X13.  When the maintenance goroutine has ended, it has found the
    lifecycle context cancelled and has cleared the map. *)
Theorem maintenance_ends_cleared c cancel ws :
  (maintenance cancel ws c).2 = false →
  cacheMap (maintenance cancel ws c).1.1 = ∅
  ∧ cancelled (maintenance cancel ws c).1.1 = true.
Proof.
  unfold maintenance. destruct (cancelled c || cancel); [done|].
  revert c. induction ws as [|w ws IH]; intros c; simpl; [done|].
  assert (Hstop : (cycle c w).2 = false →
                  cacheMap (cycle c w).1.1 = ∅
                  ∧ cancelled (cycle c w).1.1 = true).
  { unfold cycle. destruct (cancelled c || cancel_in_sleep w); [done|].
    destruct (s_cancelled (sweep c (visits w)) || cancel_at_end w); done. }
  destruct (cycle c w) as [[c1 tr1] running]. simpl in *.
  destruct running; [|auto].
  specialize (IH c1). destruct (cycles ws c1) as [[c2 tr2] running].
  simpl in *. done.
Qed.

End upkeep_facts.

(** *** A cache with one entry, through maintenance cycles *)

(** A slot whose first computation failed: made at 1000ns, never read. *)
Definition e_failed : element (V:=Z) :=
  {| data := 0; lastUsed := 0; created := 1000; ready := closed_chan |}.

(** The entry [e_read] after the refresh of a cycle at 3.5s. *)
Definition e_refreshed : element (V:=Z) :=
  {| data := 7; lastUsed := 3 * second; created := 1000 + 3500000000 + 20;
     ready := closed_chan |}.

(** A caller of [Get] whose context is not done. *)
Definition g_open : get_env (V:=Z) :=
  {| now_new := 4 * second; ctx_done := false; pick := case_ready;
     produced := (9, true); now_used := 4 * second + 150 |}.

Lemma cycle_keeps_lastUsed_and_gate_witness :
  ∃ e, cacheMap (cache_of (3 * second) (3600 * second) e_read) !! "x" = Some e
    ∧ lastUsed e_refreshed = lastUsed e ∧ ready e_refreshed = ready e
    ∧ (e_refreshed = e
       ∨ (data e_refreshed = 7
          ∧ created e_refreshed = 1000 + 3500000000 + 20)).
Proof.
  apply (cycle_keeps_lastUsed_and_gate
           (cache_of (3 * second) (3600 * second) e_read)
           (cycle_at (1000 + 3500000000) (7, true)) "x" e_refreshed).
  vm_compute. reflexivity.
Defined.

Lemma unread_is_never_refreshed_witness :
  unread e_failed
  ∧ (∀ ctx, Produce ctx "x"
       ∉ (maintenance false [cycle_at (1000 + 3500000000) (7, true)]
            (cache_of (3 * second) (3600 * second) e_failed)).1.2)
  ∧ (cacheMap (maintenance false [cycle_at (1000 + 3500000000) (7, true)]
                 (cache_of (3 * second) (3600 * second) e_failed)).1.1
       !! "x" = Some e_failed
     ∨ cacheMap (maintenance false [cycle_at (1000 + 3500000000) (7, true)]
                   (cache_of (3 * second) (3600 * second) e_failed)).1.1
         !! "x" = None).
Proof.
  assert (Hun : unread e_failed) by (unfold unread; simpl; lia).
  split; [exact Hun|].
  apply (unread_is_never_refreshed
           (cache_of (3 * second) (3600 * second) e_failed) "x" e_failed
           false [cycle_at (1000 + 3500000000) (7, true)]).
  - apply cache_of_lookup.
  - exact Hun.
Defined.

Lemma refreshed_once_per_read_witness :
  (∀ ctx, Produce ctx "x"
     ∉ (cycles [cycle_at (1000 + 7000000000) (8, true)]
          (cycle (cache_of (3 * second) (3600 * second) e_read)
             (cycle_at (1000 + 3500000000) (7, true))).1.1).1.2)
  ∧ (cacheMap (cycles [cycle_at (1000 + 7000000000) (8, true)]
                 (cycle (cache_of (3 * second) (3600 * second) e_read)
                    (cycle_at (1000 + 3500000000) (7, true))).1.1).1.1
       !! "x"
     = Some (refreshed_ok (visit_at (1000 + 3500000000) (7, true)) e_read)
     ∨ cacheMap (cycles [cycle_at (1000 + 7000000000) (8, true)]
                   (cycle (cache_of (3 * second) (3600 * second) e_read)
                      (cycle_at (1000 + 3500000000) (7, true))).1.1).1.1
         !! "x" = None).
Proof.
  apply (refreshed_once_per_read
           (cache_of (3 * second) (3600 * second) e_read)
           (cycle_at (1000 + 3500000000) (7, true)) "x" e_read
           [cycle_at (1000 + 7000000000) (8, true)]).
  - apply cache_of_lookup.
  - vm_compute. reflexivity.
  - reflexivity.
  - vm_compute. reflexivity.
  - vm_compute. reflexivity.
Defined.

Lemma Get_after_refresh_witness :
  ∃ c', Get 0 (cycle (cache_of (3 * second) (3600 * second) e_read)
                 (cycle_at (1000 + 3500000000) (7, true))).1.1
          (CallerCtx 0) "x" g_open
        = Returns (7, true, c', []).
Proof.
  apply (Get_after_refresh 0
           (cache_of (3 * second) (3600 * second) e_read)
           (cycle_at (1000 + 3500000000) (7, true)) "x" e_read
           (CallerCtx 0) g_open).
  - apply cache_of_lookup.
  - vm_compute. reflexivity.
  - reflexivity.
  - vm_compute. reflexivity.
  - simpl. lia.
  - right. split; [reflexivity | left; reflexivity].
Defined.

Lemma Get_after_eviction_witness :
  ∃ c', Get 0 (cycle (cache_of (3 * second) (2 * second) e_read)
                 (cycle_at (1000 + 3500000000) (7, true))).1.1
          (CallerCtx 0) "x" g_open
        = Returns (9, true, c',
                   [Produce (CallerCtx 0) "x"; CloseReady "x"]).
Proof.
  apply (Get_after_eviction 0
           (cache_of (3 * second) (2 * second) e_read)
           (cycle_at (1000 + 3500000000) (7, true)) "x" e_read
           (CallerCtx 0) g_open).
  - apply cache_of_lookup.
  - vm_compute. reflexivity.
  - vm_compute. reflexivity.
Defined.

Lemma maintenance_ends_cleared_witness :
  (maintenance false
     [{| cancel_in_sleep := false;
         visits := λ _, visit_at (1000 + 3500000000) (7, true);
         cancel_at_end := true |}]
     (cache_of (3 * second) (3600 * second) e_read)).2 = false
  ∧ cacheMap (maintenance false
                [{| cancel_in_sleep := false;
                    visits := λ _, visit_at (1000 + 3500000000) (7, true);
                    cancel_at_end := true |}]
                (cache_of (3 * second) (3600 * second) e_read)).1.1 = ∅
  ∧ cancelled (maintenance false
                 [{| cancel_in_sleep := false;
                     visits := λ _, visit_at (1000 + 3500000000) (7, true);
                     cancel_at_end := true |}]
                 (cache_of (3 * second) (3600 * second) e_read)).1.1 = true.
Proof.
  split; [vm_compute; reflexivity|].
  apply (maintenance_ends_cleared
           (cache_of (3 * second) (3600 * second) e_read) false
           [{| cancel_in_sleep := false;
               visits := λ _, visit_at (1000 + 3500000000) (7, true);
               cancel_at_end := true |}]).
  vm_compute. reflexivity.
Defined.

End PointCacheUpkeep.

(** ** [Set] and [Get] of the point cache, used in sequence *)

Module PointCacheUse.
Import PointCache.

Section use.
Context `{Countable K} {V : Type}.
Variable zero : V.
Implicit Types (c : Cache (K:=K) (V:=V)) (e : element (V:=V)) (key : K).

(** The element stored by [Set]. *)
Definition set_element (value : V) (now : Time) : element (V:=V) :=
  {| data := value; lastUsed := now; created := now; ready := nil_chan |}.

(** [f] applied to the cache a call returns with. *)
Definition on_cache {A B : Type} (f : Cache (K:=K) (V:=V) → Cache (K:=K) (V:=V))
  (x : outcome (A * Cache (K:=K) (V:=V) * B))
  : outcome (A * Cache (K:=K) (V:=V) * B) :=
  match x with
  | Returns (a, c, b) => Returns (a, f c, b)
  | Blocks => Blocks
  | Panics => Panics
  end.

(** No slot waits for a computation: every gate is nil or closed. *)
Definition settled c : Prop :=
  ∀ key e, cacheMap c !! key = Some e → ready e ≠ open_chan.

(** The calls a user and the maintenance goroutine make, one at a time. *)
Inductive op :=
| op_Get (ctx : context) (key : K) (w : get_env (V:=V))
| op_Set (key : K) (value : V) (now : Time)
| op_cycle (w : cycle_env (K:=K) (V:=V)).

Definition exec_op c (o : op) : outcome (Cache (K:=K) (V:=V) * list event) :=
  match o with
  | op_Get ctx key w =>
      '(_, c, tr) ← Get zero c ctx key w; Returns (c, tr)
  | op_Set key value now => Returns (Set_ c key value now, [])
  | op_cycle w => Returns (cycle c w).1
  end.

Fixpoint exec (ops : list op) c
  : outcome (Cache (K:=K) (V:=V) * list event) :=
  match ops with
  | [] => Returns (c, [])
  | o :: ops =>
      '(c, tr) ← exec_op c o;
      '(c, tr') ← exec ops c; Returns (c, tr ++ tr')
  end.

End use.

Section use_facts.
Context `{Countable K} {V : Type}.
Variable zero : V.
Implicit Types (c : Cache (K:=K) (V:=V)) (e : element (V:=V)) (key : K).

Lemma Get_present c ctx key w e :
  cacheMap c !! key = Some e →
  Get zero c ctx key w =
    match await e (ctx_done w) (pick w) with
    | None => Blocks
    | Some case_ctx_Done => Returns (data e, false, c, [])
    | Some case_ready =>
        if Time_IsZero (lastUsed e) then Returns (data e, false, c, [])
        else Returns (data e, true,
                      with_cacheMap (<[key := with_lastUsed (now_used w) e]>
                                       (cacheMap c)) c, [])
    end.
Proof. intros He. unfold Get, haxmap.GetOrCompute. by rewrite He. Qed.

Lemma Get_absent c ctx key w :
  cacheMap c !! key = None →
  Get zero c ctx key w =
    Returns ((if (produced w).2 then (produced w).1 else zero),
             (produced w).2,
             with_cacheMap
               (<[key := {| data := if (produced w).2 then (produced w).1
                                    else zero;
                            lastUsed := if (produced w).2 then now_used w
                                        else 0;
                            created := now_new w;
                            ready := closed_chan |}]> (cacheMap c)) c,
             [Produce ctx key; CloseReady key]).
Proof.
  intros Hnone. unfold Get, haxmap.GetOrCompute. rewrite Hnone.
  destruct (produced w) as [d []]; simpl; by rewrite insert_insert_eq.
Qed.

(** X1.  [Set] then [Get]: after [Set(key, value)] a [Get] of the key
    returns [(value, true)] at once, whatever the slot held before and
    whatever the state of the caller's context; it does not call the
    producer, and it stamps [lastUsed]. *)
Theorem Set_then_Get c ctx key value now w :
  now ≠ 0 →
  Get zero (Set_ c key value now) ctx key w =
    Returns (value, true,
             with_cacheMap
               (<[key := with_lastUsed (now_used w) (set_element value now)]>
                  (cacheMap c)) c,
             []).
Proof.
  intros Hnow.
  rewrite (Get_present _ _ _ _ (set_element value now))
    by apply lookup_insert_eq.
  unfold await. rewrite decide_True by done.
  unfold Time_IsZero. simpl. rewrite bool_decide_eq_false_2 by done.
  unfold haxmap.Set_. by rewrite insert_insert_eq.
Qed.

(** X2.  [Set] and [Get] on different keys do not see each other: a [Get]
    of [key'] after a [Set] of [key] blocks or returns as it would have
    before the [Set], with the same result and the same producer calls, and
    leaves the cache that the [Set] would have made of its own result. *)
Theorem Set_Get_commute c ctx key key' value now w :
  key ≠ key' →
  Get zero (Set_ c key value now) ctx key' w
  = on_cache (λ c', Set_ c' key value now) (Get zero c ctx key' w).
Proof.
  intros Hne.
  assert (Hlook : cacheMap (Set_ c key value now) !! key'
                  = cacheMap c !! key').
  { simpl. unfold haxmap.Set_. by rewrite lookup_insert_ne. }
  destruct (cacheMap c !! key') as [e|] eqn:He.
  - rewrite (Get_present _ _ _ _ e) by done.
    rewrite (Get_present c _ _ _ e) by done.
    destruct (await e (ctx_done w) (pick w)) as [[]|]; simpl; [done| |done].
    destruct (Time_IsZero (lastUsed e)); simpl; [done|].
    unfold Set_, haxmap.Set_. simpl. by rewrite insert_insert_ne.
  - rewrite Get_absent by done. rewrite (Get_absent c) by done. simpl.
    unfold Set_, haxmap.Set_. simpl. by rewrite insert_insert_ne.
Qed.

(** X3.  [Get] never panics (the deferred [close] runs on a channel made
    by the same call), and it stays blocked in exactly one situation: the
    slot exists, its gate is unresolved, and the caller's context is not
    done. *)
Theorem Get_blocks_iff c ctx key w :
  Get zero c ctx key w ≠ Panics
  ∧ (Get zero c ctx key w = Blocks
     ↔ ∃ e, cacheMap c !! key = Some e ∧ ready e = open_chan
            ∧ ctx_done w = false).
Proof.
  destruct (cacheMap c !! key) as [e|] eqn:He.
  - rewrite (Get_present _ _ _ _ e) by done. unfold await, select.
    split.
    + destruct (ready e), (ctx_done w), (pick w),
        (Time_IsZero (lastUsed e)); simpl; done.
    + split.
      * intros Hb. exists e.
        destruct (ready e), (ctx_done w), (pick w),
          (Time_IsZero (lastUsed e)); simpl in Hb; done.
      * intros (e' & [= <-] & -> & ->). done.
  - rewrite Get_absent by done. split; [done|]. split; [done|].
    intros (e & ? & _). done.
Qed.

(** X4.  A [Get] that returns has touched nothing but the slot of its key:
    the configuration and every other key are as before, the key is
    present, the only calls it can have made are one producer call for its
    key with the caller's context and the close of that slot's gate, and it
    has made none when the slot existed. *)
Theorem Get_frame c ctx key w r c' tr :
  Get zero c ctx key w = Returns (r, c', tr) →
  RefreshTime c' = RefreshTime c ∧ KeepTime c' = KeepTime c
  ∧ cancelled c' = cancelled c
  ∧ (∀ key', key' ≠ key → cacheMap c' !! key' = cacheMap c !! key')
  ∧ is_Some (cacheMap c' !! key)
  ∧ (is_Some (cacheMap c !! key) → tr = [])
  ∧ (cacheMap c !! key = None → tr = [Produce ctx key; CloseReady key]).
Proof.
  destruct (cacheMap c !! key) as [e|] eqn:He.
  - rewrite (Get_present _ _ _ _ e) by done.
    destruct (await e (ctx_done w) (pick w)) as [[]|]; [| |done].
    + intros [= <- <- <-]. rewrite He. split_and!; eauto; done.
    + destruct (Time_IsZero (lastUsed e)); intros [= <- <- <-].
      * rewrite He. split_and!; eauto; done.
      * simpl. rewrite lookup_insert_eq. split_and!; eauto; try done.
        intros key' Hne. by rewrite lookup_insert_ne.
  - rewrite Get_absent by done. intros [= <- <- <-]. simpl.
    rewrite lookup_insert_eq. split_and!; eauto; try done.
    intros key' Hne. by rewrite lookup_insert_ne.
Qed.

(** X5.  Two calls of [Get] in a row on a key that was absent: the first
    calls the producer and returns its result; the second (its [select]
    taking the gate case, as it must when its context is not done) returns
    the same pair and does not call the producer again, whether the
    producer succeeded or failed. *)
Theorem Get_then_Get c ctx ctx' key w w' :
  cacheMap c !! key = None → now_used w ≠ 0 →
  ctx_done w' = false ∨ pick w' = case_ready →
  ∃ r c1 c2,
    Get zero c ctx key w = Returns (r, c1, [Produce ctx key; CloseReady key])
    ∧ Get zero c1 ctx' key w' = Returns (r, c2, [])
    ∧ r = (if (produced w).2 then (produced w).1 else zero, (produced w).2).
Proof.
  intros Hnone Hnow Hgate. rewrite Get_absent by done.
  assert (Hsel : ∀ ch, ch = closed_chan →
            select (ctx_done w') ch (pick w') = Some case_ready).
  { intros ch ->. unfold select.
    destruct Hgate as [-> | ->]; [done|]. by destruct (ctx_done w'). }
  destruct (produced w) as [d []]; simpl;
    eexists _, _, _; (split; [done|]); (split; [|done]);
    (erewrite Get_present by apply lookup_insert_eq);
    unfold await; simpl; rewrite Hsel by done; unfold Time_IsZero; simpl.
  - by rewrite bool_decide_eq_false_2.
  - done.
Qed.

Lemma Get_settled c ctx key w :
  settled c →
  ∃ r c' tr, Get zero c ctx key w = Returns (r, c', tr) ∧ settled c'.
Proof.
  intros Hs. destruct (cacheMap c !! key) as [e|] eqn:He.
  - rewrite (Get_present _ _ _ _ e) by done.
    pose proof (Hs _ _ He) as Hno.
    assert (Hw : await e (ctx_done w) (pick w) ≠ None).
    { unfold await, select. destruct (ready e), (ctx_done w); done. }
    destruct (await e (ctx_done w) (pick w)) as [[]|]; [| |done].
    + eauto.
    + destruct (Time_IsZero (lastUsed e)); [eauto|].
      eexists _, _, _. split; [done|].
      intros k e0. simpl. rewrite lookup_insert. case_decide.
      * intros [= <-]. done.
      * apply Hs.
  - rewrite Get_absent by done. eexists _, _, _. split; [done|].
    intros k e0. simpl. rewrite lookup_insert. case_decide.
    + intros [= <-]. done.
    + apply Hs.
Qed.

Lemma Set_settled c key value now : settled c → settled (Set_ c key value now).
Proof.
  intros Hs k e0. simpl. unfold haxmap.Set_. rewrite lookup_insert.
  case_decide.
  - intros [= <-]. done.
  - apply Hs.
Qed.

Lemma cycle_settled c w : settled c → settled (cycle c w).1.1.
Proof.
  intros Hs k e' (e & He & Hcase)%PointCacheUpkeep.cycle_lookup_cases.
  pose proof (Hs _ _ He) as Hno.
  destruct Hcase as [->|(_ & _ & ->)]; done.
Qed.

(** X6.  Used by one goroutine at a time, the cache never blocks: when no
    slot waits for a computation (as in a cache just made by [New]), any
    sequence of [Get] and [Set] calls and maintenance cycles, each run to
    its end before the next starts, runs through without blocking or
    panicking, whatever the producer returns and whatever the state of the
    callers' contexts, and again leaves no slot waiting. *)
Theorem sequential_use_never_blocks c ops :
  settled c →
  ∃ c' tr, exec zero ops c = Returns (c', tr) ∧ settled c'.
Proof.
  revert c. induction ops as [|o ops IH]; intros c Hs; simpl.
  - eauto.
  - assert (Hop : ∃ c1 tr1, exec_op zero c o = Returns (c1, tr1) ∧ settled c1).
    { destruct o as [ctx key w|key value now|w]; simpl.
      - destruct (Get_settled c ctx key w Hs) as (r & c1 & tr1 & -> & Hs1).
        simpl. eauto.
      - eauto using Set_settled.
      - destruct (cycle c w) as [[c1 tr1] running] eqn:Hc.
        exists c1, tr1. split; [done|].
        pose proof (cycle_settled c w Hs) as Hs1. by rewrite Hc in Hs1. }
    destruct Hop as (c1 & tr1 & -> & Hs1). simpl.
    destruct (IH c1 Hs1) as (c2 & tr2 & -> & Hs2). simpl. eauto.
Qed.

Lemma New_settled RefreshTime KeepTime :
  settled (New (K:=K) (V:=V) RefreshTime KeepTime).
Proof. intros k e. simpl. by rewrite lookup_empty. Qed.

End use_facts.

(** *** The cache of the package's test, used by one goroutine *)

Definition c_empty : Cache (K:=string) (V:=Z) := New 3000000000 3600000000000.

(** A [Get] whose producer takes 150ns and succeeds. *)
Definition g_first : get_env (V:=Z) :=
  {| now_new := 100; ctx_done := false; pick := case_ready;
     produced := (3, true); now_used := 250 |}.

(** A later [Get] whose context is not done. *)
Definition g_second : get_env (V:=Z) :=
  {| now_new := 300; ctx_done := false; pick := case_ctx_Done;
     produced := (4, true); now_used := 310 |}.

(** A [Get] whose context is done already, the [select] taking that case
    when it can. *)
Definition g_done : get_env (V:=Z) :=
  {| now_new := 300; ctx_done := true; pick := case_ctx_Done;
     produced := (4, true); now_used := 310 |}.

(** The cache after the first [Get] of "one". *)
Definition c_one : Cache (K:=string) (V:=Z) :=
  with_cacheMap
    (<["one" := {| data := 3; lastUsed := 250; created := 100;
                   ready := closed_chan |}]> (cacheMap c_empty)) c_empty.

(** A maintenance cycle 3.5s later. *)
Definition w_cycle : cycle_env (K:=string) (V:=Z) :=
  {| cancel_in_sleep := false;
     visits := λ _, {| v_cancel := false; v_now_created := 3500000000;
                       v_now_used := 3500000010; v_produced := (7, true);
                       v_now_refreshed := 3500000020 |};
     cancel_at_end := false |}.

Lemma Set_then_Get_witness :
  Get 0 (Set_ c_empty "one" 5 100) (CallerCtx 0) "one" g_done
  = Returns (5, true,
             with_cacheMap
               (<["one" := with_lastUsed 310 (set_element 5 100)]>
                  (cacheMap c_empty)) c_empty,
             []).
Proof.
  apply (Set_then_Get 0 c_empty (CallerCtx 0) "one" 5 100 g_done). lia.
Defined.

Lemma Set_Get_commute_witness :
  Get 0 (Set_ c_one "two" 5 400) (CallerCtx 0) "one" g_second
  = on_cache (λ c', Set_ c' "two" 5 400)
      (Get 0 c_one (CallerCtx 0) "one" g_second).
Proof.
  apply (Set_Get_commute 0 c_one (CallerCtx 0) "two" "one" 5 400 g_second).
  discriminate.
Defined.

Lemma Get_frame_witness :
  RefreshTime c_one = RefreshTime c_empty ∧ KeepTime c_one = KeepTime c_empty
  ∧ cancelled c_one = cancelled c_empty
  ∧ (∀ key', key' ≠ "one" → cacheMap c_one !! key' = cacheMap c_empty !! key')
  ∧ is_Some (cacheMap c_one !! "one")
  ∧ (is_Some (cacheMap c_empty !! "one") → [Produce (CallerCtx 0) "one";
                                         CloseReady "one"] = [])
  ∧ (cacheMap c_empty !! "one" = None →
     [Produce (CallerCtx 0) "one"; CloseReady "one"]
     = [Produce (CallerCtx 0) "one"; CloseReady "one"]).
Proof.
  apply (Get_frame 0 c_empty (CallerCtx 0) "one" g_first (3, true) c_one
           [Produce (CallerCtx 0) "one"; CloseReady "one"]).
  vm_compute. reflexivity.
Defined.

Lemma Get_then_Get_witness :
  ∃ r c1 c2,
    Get 0 c_empty (CallerCtx 0) "one" g_first
    = Returns (r, c1, [Produce (CallerCtx 0) "one"; CloseReady "one"])
    ∧ Get 0 c1 (CallerCtx 1) "one" g_second = Returns (r, c2, [])
    ∧ r = (3, true).
Proof.
  apply (Get_then_Get 0 c_empty (CallerCtx 0) (CallerCtx 1) "one" g_first g_second).
  - reflexivity.
  - simpl. lia.
  - left. reflexivity.
Defined.

Lemma sequential_use_never_blocks_witness :
  ∃ c' tr,
    exec 0 [op_Get (CallerCtx 0) "one" g_first; op_Set "two" 5 400;
            op_cycle w_cycle; op_Get (CallerCtx 1) "one" g_done] c_empty
    = Returns (c', tr)
    ∧ settled c'.
Proof.
  apply (sequential_use_never_blocks 0 c_empty).
  intros key e He. simpl in He. rewrite lookup_empty in He. discriminate He.
Defined.

End PointCacheUse.

(** ** Producer runs and the turns of the loop of the bulk cache *)

Module BulkCacheUse.
Import BulkCache BulkCacheFacts.

Section bulk_use.
Context `{Countable K} {V : Type}.
Implicit Types (c : CacheMap (K:=K) (V:=V)) (key : K) (tr : list event).

Definition is_Refresh (ev : event) : bool :=
  match ev with
  | Refresh _ => true
  | _ => false
  end.

(** How often the producer was called in a trace. *)
Definition refresh_count tr : nat :=
  length (filter (λ ev, is_Refresh ev = true) tr).

(** A producer run is due: [RefreshTime] or more has passed since the start
    of the last run that succeeded. *)
Definition due c (now : Time) : Prop :=
  RefreshTime c ≤ time_Since now (lastRefresh c).

End bulk_use.

Section bulk_use_facts.
Context `{Countable K} {V : Type}.
Variable zero : V.
Implicit Types (c : CacheMap (K:=K) (V:=V)) (key : K) (tr : list event).
Implicit Types (r : run_env (K:=K) (V:=V)) (w : iter_env (K:=K) (V:=V)).

Lemma foldl_setter_last (m : gmap K (mapElement (V:=V)))
    (ws1 ws2 : list (K * V * Time)) key v t :
  key ∉ ws2.*1.*1 →
  foldl setter m (ws1 ++ (key, v, t) :: ws2) !! key
  = Some {| data := v; created := t |}.
Proof.
  intros Hnotin. rewrite foldl_app. cbn [foldl].
  rewrite foldl_setter_other by done.
  simpl. unfold haxmap.Set_. apply lookup_insert_eq.
Qed.

(** X14.  The last write wins: after a producer run, a key the run wrote
    holds the value and the time stamp of the last call of the setter for
    that key, whatever the map held for it before. *)
Theorem refresh_last_write_wins c r ws1 ws2 key v t :
  gate_ok c →
  r_writes r = ws1 ++ (key, v, t) :: ws2 → key ∉ ws2.*1.*1 →
  ∃ c' tr, refresh c r = Returns (c', tr)
    ∧ cacheMap c' !! key = Some {| data := v; created := t |}.
Proof.
  intros Hok Hws Hlast.
  destruct (refresh_ok_cases c r Hok) as (c' & tr & Hrun & _ & Hm & _).
  exists c', tr. split; [done|]. rewrite Hm, Hws.
  by apply foldl_setter_last.
Qed.

(** X15.  What a first producer run that fails (or that ends with the
    lifecycle context cancelled) leaves behind: its writes are in the map,
    not rolled back, but they are not served; the gate stays unresolved, so
    a [Get] of any key, written or not, stays blocked while its context is
    not done and returns [(zero, false)] when it is. *)
Theorem failed_first_run_is_not_served RefreshTime KeepTime r pick key :
  r_ok r = false ∨ r_cancel r = true →
  ∃ c', refresh (NewMap (K:=K) (V:=V) RefreshTime KeepTime) r
        = Returns (c', [Refresh (r_ok r)])
    ∧ cacheMap c' = foldl setter ∅ (r_writes r)
    ∧ lastRefresh c' = 0
    ∧ Get zero c' false pick key = Blocks
    ∧ Get zero c' true pick key = Returns (zero, false).
Proof.
  intros Hfail. rewrite refresh_cases by done. simpl.
  assert (Hno : r_ok r && negb (r_cancel r) = false).
  { destruct Hfail as [-> | ->]; [done|]. apply andb_false_r. }
  rewrite Hno. eexists. split; [done|]. done.
Qed.

(** X16.  After the first producer run that succeeds, [Get] answers from
    what the run wrote: the last value written for a key the producer
    wrote, and [(zero, false)] for a key it did not write; it does not
    block. *)
Theorem Get_after_first_run RefreshTime KeepTime r :
  r_ok r = true → r_cancel r = false →
  ∃ c' tr,
    refresh (NewMap (K:=K) (V:=V) RefreshTime KeepTime) r = Returns (c', tr)
    ∧ lastRefresh c' = r_start r
    ∧ (∀ pick key, key ∉ written r →
         Get zero c' false pick key = Returns (zero, false))
    ∧ (∀ pick ws1 ws2 key v t,
         r_writes r = ws1 ++ (key, v, t) :: ws2 → key ∉ ws2.*1.*1 →
         Get zero c' false pick key = Returns (v, true)).
Proof.
  intros Hok Hnc. rewrite refresh_cases by done. simpl.
  rewrite Hok, Hnc. simpl. eexists _, _. split; [done|]. split; [done|].
  split.
  - intros pick key Hnotin. unfold Get, haxmap.Get. simpl.
    rewrite foldl_setter_other by done. by rewrite lookup_empty.
  - intros pick ws1 ws2 key v t Hws Hlast. unfold Get, haxmap.Get. simpl.
    rewrite Hws. by rewrite foldl_setter_last.
Qed.

Lemma iteration_closed c w :
  ready_done c = true → ready c = closed_chan →
  ∃ c' tr running,
    iteration c w = Returns (c', tr, running)
    ∧ ready_done c' = true ∧ ready c' = closed_chan ∧ (CloseReady ∉ tr).
Proof.
  intros Hd Hr.
  assert (Hok : gate_ok c) by (intros Hd'; congruence).
  unfold iteration.
  destruct (cancelled c || i_cancel_sleep w).
  { rewrite leave_cases by done. rewrite Hd. eexists _, _, _.
    split; [done|]. split_and!; [done|done|].
    rewrite !elem_of_cons, elem_of_nil. intros Hin.
    destruct_or!; done || discriminate. }
  set (c1 := with_cacheMap (sweep c (i_sweep_now w)) c).
  assert (Hok1 : gate_ok c1) by done.
  assert (Hend : ∀ c2 tr2, ready_done c2 = true → ready c2 = closed_chan →
            (CloseReady ∉ tr2) →
            ∃ c' tr running,
              loop_condition (i_cancel_end w) c2 tr2
              = Returns (c', tr, running)
              ∧ ready_done c' = true ∧ ready c' = closed_chan
              ∧ (CloseReady ∉ tr)).
  { intros c2 tr2 Hd2 Hr2 Htr2. unfold loop_condition.
    destruct (cancelled c2 || i_cancel_end w).
    - rewrite leave_cases by (intros Hd'; congruence). rewrite Hd2. simpl.
      eexists _, _, _. split; [done|]. split_and!; [done|done|].
      rewrite elem_of_app, !elem_of_cons, elem_of_nil. intros Hin.
      destruct_or!; done || discriminate.
    - eexists _, _, _. split; [done|]. done. }
  case_bool_decide.
  - simpl. apply Hend; [done|done|apply not_elem_of_nil].
  - rewrite refresh_cases by done. change (ready_done c1) with (ready_done c).
    rewrite Hd.
    destruct (r_ok (i_run w) && negb (cancelled c1 || r_cancel (i_run w)));
      simpl; (apply Hend; [done|done|]);
      rewrite !elem_of_cons, elem_of_nil; intros Hin;
      destruct_or!; done || discriminate.
Qed.

(** X17.  Once the cache-wide gate is resolved it stays resolved through
    every later turn of the maintenance loop, which never panics and closes
    nothing again; so from then on a [Get] whose context is not done never
    blocks: it returns the plain lookup. *)
Theorem gate_stays_resolved c ws :
  ready_done c = true → ready c = closed_chan →
  ∃ c' tr running,
    iterations ws c = Returns (c', tr, running)
    ∧ ready c' = closed_chan ∧ (CloseReady ∉ tr)
    ∧ ∀ pick key,
        Get zero c' false pick key
        = match cacheMap c' !! key with
          | Some value => Returns (data value, true)
          | None => Returns (zero, false)
          end.
Proof.
  intros Hd Hr.
  assert (Hgen : ∃ c' tr running,
            iterations ws c = Returns (c', tr, running)
            ∧ ready_done c' = true ∧ ready c' = closed_chan
            ∧ (CloseReady ∉ tr)).
  { revert c Hd Hr. induction ws as [|w ws IH]; intros c Hd Hr; simpl.
    - eexists _, _, _. split; [done|]. split_and!; [done|done|].
      apply not_elem_of_nil.
    - destruct (iteration_closed c w Hd Hr)
        as (c1 & tr1 & running & -> & Hd1 & Hr1 & Htr1).
      simpl. destruct running.
      + destruct (IH c1 Hd1 Hr1) as (c2 & tr2 & running & -> & Hd2 & Hr2 & Htr2).
        simpl. eexists _, _, _. split; [done|]. split_and!; [done|done|].
        rewrite elem_of_app. tauto.
      + eexists _, _, _. split; [done|]. done. }
  destruct Hgen as (c' & tr & running & Hrun & _ & Hr' & Htr).
  exists c', tr, running. split_and!; [done|done|done|].
  intros pick key. unfold Get, select, haxmap.Get. by rewrite Hr'.
Qed.

Lemma refresh_count_app tr1 tr2 :
  refresh_count (tr1 ++ tr2) = (refresh_count tr1 + refresh_count tr2)%nat.
Proof. unfold refresh_count. by rewrite filter_app, length_app. Qed.

Lemma leave_quiet c :
  gate_ok c →
  ∃ c' tr, leave c = Returns (c', tr, false)
    ∧ refresh_count tr = 0%nat ∧ lastRefresh c' = lastRefresh c
    ∧ cacheMap c' = cacheMap c.
Proof.
  intros Hok. rewrite leave_cases by done.
  destruct (ready_done c); eexists _, _; done.
Qed.

Lemma loop_condition_quiet cancel c tr :
  gate_ok c →
  ∃ c' tr' running,
    loop_condition cancel c tr = Returns (c', tr', running)
    ∧ refresh_count tr' = refresh_count tr
    ∧ lastRefresh c' = lastRefresh c ∧ cacheMap c' = cacheMap c.
Proof.
  intros Hok. unfold loop_condition. destruct (cancelled c || cancel).
  - destruct (leave_quiet c Hok) as (c' & tr' & -> & Hn & Hl & Hm). simpl.
    eexists _, _, _. split; [done|]. rewrite refresh_count_app, Hn.
    split; [lia|done].
  - eexists _, _, _. done.
Qed.

Lemma refresh_once c r :
  gate_ok c →
  ∃ c' tr, refresh c r = Returns (c', tr) ∧ gate_ok c'
    ∧ refresh_count tr = 1%nat
    ∧ (r_ok r = true → cancelled c = false → r_cancel r = false →
       lastRefresh c' = r_start r)
    ∧ (r_ok r = false → lastRefresh c' = lastRefresh c).
Proof.
  intros Hok. rewrite refresh_cases by done.
  destruct (r_ok r) eqn:Hrok, (cancelled c) eqn:Hc, (r_cancel r) eqn:Hrc;
    simpl; destruct (ready_done c) eqn:Hd; simpl;
    eexists _, _; (split; [done|]);
    (split; [intros Hd'; simpl in *; first [congruence | by apply Hok]|]);
    done.
Qed.

(** X18.  The cadence of the producer: in a turn of the loop that is not
    cut short by cancellation during its sleep, the producer is called
    exactly once when a run is due and not at all otherwise.  When no run
    is due, [lastRefresh] stays and the turn only removes entries: every
    entry left is an entry that was there, unchanged.  A run that succeeds
    sets [lastRefresh] to the clock read before the producer was called; a
    run that fails leaves it. *)
Theorem producer_cadence c w :
  gate_ok c → cancelled c = false → i_cancel_sleep w = false →
  ∃ c' tr running,
    iteration c w = Returns (c', tr, running)
    ∧ (¬ due c (i_now w) →
       refresh_count tr = 0%nat ∧ lastRefresh c' = lastRefresh c
       ∧ ∀ key value, cacheMap c' !! key = Some value →
                      cacheMap c !! key = Some value)
    ∧ (due c (i_now w) →
       refresh_count tr = 1%nat
       ∧ (r_ok (i_run w) = true → r_cancel (i_run w) = false →
          lastRefresh c' = r_start (i_run w))
       ∧ (r_ok (i_run w) = false → lastRefresh c' = lastRefresh c)).
Proof.
  intros Hok Hnc Hsleep. unfold iteration, due.
  rewrite Hnc, Hsleep. simpl.
  set (c1 := with_cacheMap (sweep c (i_sweep_now w)) c).
  assert (Hok1 : gate_ok c1) by done.
  change (lastRefresh c1) with (lastRefresh c).
  change (RefreshTime c1) with (RefreshTime c).
  case_bool_decide as Hdue.
  - simpl.
    destruct (loop_condition_quiet (i_cancel_end w) c1 [] Hok1)
      as (c' & tr & running & -> & Hn & Hl & Hm).
    exists c', tr, running. split; [done|].
    split; [intros _ | intros ?; lia].
    split; [done|]. split; [done|].
    intros key value. rewrite Hm. change (cacheMap c1) with (sweep c (i_sweep_now w)).
    rewrite sweep_lookup.
    destruct (cacheMap c !! key); [|done]. by case_bool_decide.
  - destruct (refresh_once c1 (i_run w) Hok1)
      as (c2 & tr2 & -> & Hok2 & Hn2 & Hs2 & Hf2). simpl.
    destruct (loop_condition_quiet (i_cancel_end w) c2 tr2 Hok2)
      as (c' & tr & running & -> & Hn & Hl & Hm).
    exists c', tr, running. split; [done|].
    split; [intros Hnd; lia | intros _].
    split; [lia|]. rewrite Hl. split.
    + intros Hrok Hrc. by apply Hs2.
    + intros Hrok. by rewrite Hf2.
Qed.

End bulk_use_facts.

(** *** The bulk cache of the package's test, over several runs *)

(** A run that writes the key "1" twice. *)
Definition r_twice : run_env (K:=string) (V:=Z) :=
  {| r_start := 5 * second;
     r_writes := [("1", 11, 5 * second + 1); ("1", 12, 5 * second + 2)];
     r_ok := true; r_cancel := false |}.

(** A run that writes one key and then fails. *)
Definition r_half : run_env (K:=string) (V:=Z) :=
  {| r_start := 1000; r_writes := [("0", 0, second + 1)];
     r_ok := false; r_cancel := false |}.

(** A turn of the loop at 2s, before a run is due, and one at 5s. *)
Definition w_early : iter_env (K:=string) (V:=Z) :=
  {| i_cancel_sleep := false; i_sweep_now := λ _, 2 * second;
     i_now := 2 * second; i_run := r_twice; i_cancel_end := false |}.

Definition w_due : iter_env (K:=string) (V:=Z) :=
  {| i_cancel_sleep := false; i_sweep_now := λ _, 5 * second;
     i_now := 5 * second; i_run := r_twice; i_cancel_end := false |}.

Lemma refresh_last_write_wins_witness :
  ∃ c' tr, refresh (c_pop (3600 * second)) r_twice = Returns (c', tr)
    ∧ cacheMap c' !! "1"
      = Some {| data := 12; created := 5 * second + 2 |}.
Proof.
  apply (refresh_last_write_wins (c_pop (3600 * second)) r_twice
           [("1", 11, 5 * second + 1)] [] "1" 12 (5 * second + 2)).
  - intros Hd. discriminate Hd.
  - reflexivity.
  - apply not_elem_of_nil.
Defined.

Lemma failed_first_run_is_not_served_witness :
  ∃ c', refresh (NewMap (4 * second) (3600 * second)) r_half
        = Returns (c', [Refresh false])
    ∧ cacheMap c' = foldl setter ∅ (r_writes r_half)
    ∧ lastRefresh c' = 0
    ∧ Get 0 c' false case_ready "0" = Blocks
    ∧ Get 0 c' true case_ready "0" = Returns (0, false).
Proof.
  apply (failed_first_run_is_not_served 0 (4 * second) (3600 * second)
           r_half case_ready "0").
  left. reflexivity.
Defined.

Lemma Get_after_first_run_witness :
  ∃ c' tr,
    refresh (NewMap (4 * second) (3600 * second)) r_first = Returns (c', tr)
    ∧ lastRefresh c' = r_start r_first
    ∧ (∀ pick key, key ∉ written r_first →
         Get 0 c' false pick key = Returns (0, false))
    ∧ (∀ pick ws1 ws2 key v t,
         r_writes r_first = ws1 ++ (key, v, t) :: ws2 → key ∉ ws2.*1.*1 →
         Get 0 c' false pick key = Returns (v, true)).
Proof.
  apply (Get_after_first_run 0 (4 * second) (3600 * second) r_first);
    reflexivity.
Defined.

Lemma gate_stays_resolved_witness :
  ∃ c' tr running,
    iterations [w_early; w_due] (c_pop (3600 * second))
    = Returns (c', tr, running)
    ∧ ready c' = closed_chan ∧ (CloseReady ∉ tr)
    ∧ ∀ pick key,
        Get 0 c' false pick key
        = match cacheMap c' !! key with
          | Some value => Returns (data value, true)
          | None => Returns (0, false)
          end.
Proof.
  apply (gate_stays_resolved 0 (c_pop (3600 * second)) [w_early; w_due]);
    reflexivity.
Defined.

Lemma producer_cadence_witness :
  ¬ due (c_pop (3600 * second)) (i_now w_early)
  ∧ ∃ c' tr running,
      iteration (c_pop (3600 * second)) w_early = Returns (c', tr, running)
      ∧ refresh_count tr = 0%nat
      ∧ lastRefresh c' = lastRefresh (c_pop (3600 * second)).
Proof.
  assert (Hearly : ¬ due (c_pop (3600 * second)) (i_now w_early)).
  { unfold due. vm_compute. intros Hle. apply Hle. reflexivity. }
  split; [exact Hearly|].
  destruct (producer_cadence (c_pop (3600 * second)) w_early)
    as (c' & tr & running & Hrun & Hnot & _).
  - intros Hd. discriminate Hd.
  - reflexivity.
  - reflexivity.
  - exists c', tr, running. split; [exact Hrun|].
    destruct (Hnot Hearly) as (Hn & Hl & _). split; [exact Hn | exact Hl].
Defined.

End BulkCacheUse.
